(** * Knowledge-based Minesweeper agent (src/minesweeper.py)

    Shallow embedding of the classes [Minesweeper] (the parts the agent
    depends on), [Sentence] and [MinesweeperAI].

    - A cell [(i, j)] is a pair of Python ints, here [Z * Z].
    - Python sets of cells are stdpp [gset]s; [self.knowledge] is a Python
      list of [Sentence] objects, here a [list Sentence.t].  The list only
      ever grows by [append] and its objects are mutated in place by the
      marking methods, so a [Sentence] object is identified by its index in
      [self.knowledge]: the copies [self.knowledge.copy()] iterated by the
      deduction loop are lists of indices, and each field access reads the
      object at its index in the current state (aliasing is preserved).
    - [update_knowledge] is recursive and its loops are [while] loops, so it
      takes a fuel argument and returns [None] when the fuel runs out.
      [Some ai] is the state in which the Python call returns. *)

From Stdlib Require Import ZArith List Lia.
From stdpp Require Import base gmap sets list.

Open Scope Z_scope.

Abbreviation cell := (Z * Z)%type.

(** Python's [x in range(lo, hi)] for an int [x]. *)
Definition in_range (x lo hi : Z) : bool := (lo <=? x) && (x <? hi).

(** Python's [range(a, b)] as a list. *)
Definition zrange (a b : Z) : list Z :=
  map (fun k => a + Z.of_nat k) (seq 0 (Z.to_nat (b - a))).

(** ** class Minesweeper (the parts that produce the hints) *)

(** [self.board[i][j]] is [True] exactly for the cells of [self.mines]. *)
Record Minesweeper := mkMinesweeper {
  ms_height : Z;
  ms_width : Z;
  ms_mines : gset cell
}.

Definition is_mine (g : Minesweeper) (c : cell) : bool :=
  bool_decide (c ∈ ms_mines g).

(** [Minesweeper.nearby_mines]: the two nested [for] loops over
    [range(cell[0] - 1, cell[0] + 2)] and [range(cell[1] - 1, cell[1] + 2)]. *)
Definition nearby_mines (g : Minesweeper) (c : cell) : Z :=
  foldl (fun cnt i =>
    foldl (fun cnt j =>
      if bool_decide ((i, j) = c) then cnt
      else if in_range i 0 (ms_height g) && in_range j 0 (ms_width g)
      then (if is_mine g (i, j) then cnt + 1 else cnt)
      else cnt)
      cnt (zrange (c.2 - 1) (c.2 + 2)))
    0 (zrange (c.1 - 1) (c.1 + 2)).

(** ** class Sentence *)

Module Sentence.

Record t := mk {
  cells : gset cell;
  mines : gset cell;
  safes : gset cell;
  count : Z
}.

(** [Sentence.__init__] *)
Definition init (cells0 : gset cell) (count0 : Z) : t :=
  if Z.of_nat (size cells0) =? count0 then mk ∅ cells0 ∅ 0
  else if count0 =? 0 then mk ∅ ∅ cells0 count0
  else mk cells0 ∅ ∅ count0.

(** [Sentence.__eq__] *)
Definition eqb (s1 s2 : t) : bool :=
  bool_decide (cells s1 = cells s2) && (count s1 =? count s2).

(** [Sentence.mark_mine] *)
Definition mark_mine (c : cell) (s : t) : t :=
  if bool_decide (c ∈ cells s)
  then mk (cells s ∖ {[c]}) ({[c]} ∪ mines s) (safes s) (count s - 1)
  else s.

(** [Sentence.mark_safe] *)
Definition mark_safe (c : cell) (s : t) : t :=
  if bool_decide (c ∈ cells s)
  then mk (cells s ∖ {[c]}) (mines s) ({[c]} ∪ safes s) (count s)
  else s.

End Sentence.

(** ** class MinesweeperAI *)

Record MinesweeperAI := mkAI {
  height : Z;
  width : Z;
  moves_made : gset cell;
  mines : gset cell;
  safes : gset cell;
  knowledge : list Sentence.t
}.

(** [MinesweeperAI.__init__] *)
Definition init_ai (h w : Z) : MinesweeperAI := mkAI h w ∅ ∅ ∅ [].

Definition neighbor_vectors : list (Z * Z) :=
  [(-1, -1); (-1, 0); (-1, 1); (0, -1); (0, 1); (1, -1); (1, 0); (1, 1)].

(** [MinesweeperAI.mark_mine]: every sentence object is updated in place. *)
Definition mark_mine (ai : MinesweeperAI) (c : cell) : MinesweeperAI :=
  mkAI (height ai) (width ai) (moves_made ai) ({[c]} ∪ mines ai) (safes ai)
    (map (Sentence.mark_mine c) (knowledge ai)).

(** [MinesweeperAI.mark_safe] *)
Definition mark_safe (ai : MinesweeperAI) (c : cell) : MinesweeperAI :=
  mkAI (height ai) (width ai) (moves_made ai) (mines ai) ({[c]} ∪ safes ai)
    (map (Sentence.mark_safe c) (knowledge ai)).

(** [self.knowledge.append(sentence)] *)
Definition append_sentence (ai : MinesweeperAI) (s : Sentence.t) : MinesweeperAI :=
  mkAI (height ai) (width ai) (moves_made ai) (mines ai) (safes ai)
    (knowledge ai ++ [s]).

(** [self.moves_made.add(cell)] *)
Definition add_move (ai : MinesweeperAI) (c : cell) : MinesweeperAI :=
  mkAI (height ai) (width ai) ({[c]} ∪ moves_made ai) (mines ai) (safes ai)
    (knowledge ai).

(** [for safe in safes: self.mark_safe(safe)] and the same for mines. *)
Definition mark_safes (ai : MinesweeperAI) (sf : gset cell) : MinesweeperAI :=
  foldl mark_safe ai (elements sf).

Definition mark_mines (ai : MinesweeperAI) (mn : gset cell) : MinesweeperAI :=
  foldl mark_mine ai (elements mn).

(** The loop "check if sentence reveals new info" of [update_knowledge],
    starting from the sets [safes] and [mines] given as [sf] and [mn]. *)
Definition scan_step (acc : gset cell * gset cell) (st : Sentence.t)
    : gset cell * gset cell :=
  let '(sf, mn) := acc in
  if Sentence.count st =? 0 then (sf ∪ Sentence.cells st, mn)
  else if Z.of_nat (size (Sentence.cells st)) =? Sentence.count st
  then (sf, mn ∪ Sentence.cells st)
  else (sf, mn).

Definition scan (kn : list Sentence.t) (sf mn : gset cell) : gset cell * gset cell :=
  foldl scan_step (sf, mn) kn.

(** [while len(safes) > 0 or len(mines) > 0: ...] *)
Fixpoint propagate (fuel : nat) (ai : MinesweeperAI) (sf mn : gset cell)
    : option MinesweeperAI :=
  match fuel with
  | O => None
  | S fuel' =>
      if (size sf =? 0)%nat && (size mn =? 0)%nat then Some ai
      else
        let ai' := mark_mines (mark_safes ai sf) mn in
        let '(sf', mn') := scan (knowledge ai') ∅ ∅ in
        propagate fuel' ai' sf' mn'
  end.

Section Deduction.

(** The recursive call [self.update_knowledge(cells, count)]. *)
Variable rec : MinesweeperAI -> gset cell -> Z -> option MinesweeperAI.

(** The body of the inner [for s2 in self.knowledge.copy()] loop, for the
    sentence objects at indices [i] (s1) and [j] (s2). *)
Definition step_pair (ai : MinesweeperAI) (i j : nat) : option MinesweeperAI :=
  match knowledge ai !! i, knowledge ai !! j with
  | Some s1, Some s2 =>
      if Sentence.eqb s1 s2 || (Sentence.count s1 =? 0)
         || (Sentence.count s2 =? 0) then Some ai
      else if bool_decide (Sentence.cells s1 ⊆ Sentence.cells s2) then
        rec ai (Sentence.cells s2 ∖ Sentence.cells s1)
               (Sentence.count s2 - Sentence.count s1)
      else if bool_decide (Sentence.cells s2 ⊂ Sentence.cells s1) then
        rec ai (Sentence.cells s1 ∖ Sentence.cells s2)
               (Sentence.count s1 - Sentence.count s2)
      else Some ai
  | _, _ => Some ai
  end.

(** [for s2 in self.knowledge.copy(): ...] *)
Fixpoint inner_loop (ai : MinesweeperAI) (i : nat) (js : list nat)
    : option MinesweeperAI :=
  match js with
  | [] => Some ai
  | j :: js' =>
      match step_pair ai i j with
      | None => None
      | Some ai' => inner_loop ai' i js'
      end
  end.

(** [for s1 in self.knowledge.copy(): for s2 in self.knowledge.copy(): ...];
    the inner copy is taken anew for every [s1]. *)
Fixpoint outer_loop (ai : MinesweeperAI) (is : list nat)
    : option MinesweeperAI :=
  match is with
  | [] => Some ai
  | i :: is' =>
      match inner_loop ai i (seq 0 (length (knowledge ai))) with
      | None => None
      | Some ai' => outer_loop ai' is'
      end
  end.

(** [while l0 < len(self.knowledge): l0 = len(self.knowledge); ...] *)
Fixpoint deduce_loop (fuel : nat) (l0 : nat) (ai : MinesweeperAI)
    : option MinesweeperAI :=
  match fuel with
  | O => None
  | S fuel' =>
      if (l0 <? length (knowledge ai))%nat then
        let l0' := length (knowledge ai) in
        match outer_loop ai (seq 0 l0') with
        | None => None
        | Some ai' => deduce_loop fuel' l0' ai'
        end
      else Some ai
  end.

End Deduction.

(** [MinesweeperAI.update_knowledge] *)
Fixpoint update_knowledge (fuel : nat) (ai : MinesweeperAI) (cells0 : gset cell)
    (count0 : Z) : option MinesweeperAI :=
  match fuel with
  | O => None
  | S fuel' =>
      let sentence := Sentence.init cells0 count0 in
      let ai1 :=
        if existsb (Sentence.eqb sentence) (knowledge ai) then ai
        else append_sentence ai sentence in
      let '(sf, mn) :=
        scan (knowledge ai1) (Sentence.safes sentence) (Sentence.mines sentence) in
      match propagate fuel' ai1 sf mn with
      | None => None
      | Some ai2 => deduce_loop (update_knowledge fuel') fuel' 0 ai2
      end
  end.

(** One iteration of the loop over [self.neighbor_vectors] in
    [add_knowledge], on the working pair [(count, neighbors)]. *)
Definition neighbor_step (ai : MinesweeperAI) (c : cell)
    (acc : Z * gset cell) (vec : Z * Z) : Z * gset cell :=
  let '(cnt, nbrs) := acc in
  let neighbor := (c.1 + vec.1, c.2 + vec.2) in
  if in_range neighbor.1 0 (height ai) && in_range neighbor.2 0 (width ai)
     && negb (bool_decide (neighbor ∈ moves_made ai)) then
    if bool_decide (neighbor ∈ mines ai) then (cnt - 1, nbrs)
    else if negb (bool_decide (neighbor ∈ safes ai)) then (cnt, {[neighbor]} ∪ nbrs)
    else (cnt, nbrs)
  else (cnt, nbrs).

(** [MinesweeperAI.add_knowledge] *)
Definition add_knowledge (fuel : nat) (ai : MinesweeperAI) (c : cell) (cnt : Z)
    : option MinesweeperAI :=
  let ai1 := mark_safe (add_move ai c) c in
  let '(cnt', nbrs) := foldl (neighbor_step ai1 c) (cnt, ∅) neighbor_vectors in
  update_knowledge fuel ai1 nbrs cnt'.

(** [MinesweeperAI.make_safe_move]: reads the state, does not change it. *)
Definition make_safe_move (ai : MinesweeperAI) : option cell :=
  find (fun s => negb (bool_decide (s ∈ moves_made ai))) (elements (safes ai)).

(** [MinesweeperAI.make_random_move].  The random source is the sequence
    [rnd]: [rnd k] is the pair [(random.randint(0, self.height - 1),
    random.randint(0, self.width - 1))] drawn at the [k]-th attempt. *)
Fixpoint random_move_loop (fuel : nat) (ai : MinesweeperAI) (rnd : nat -> cell)
    (k : nat) : option cell :=
  match fuel with
  | O => None
  | S fuel' =>
      let move := rnd k in
      if bool_decide (move ∈ moves_made ai) || bool_decide (move ∈ mines ai)
      then random_move_loop fuel' ai rnd (S k)
      else Some move
  end.

Definition make_random_move (fuel : nat) (ai : MinesweeperAI) (rnd : nat -> cell)
    : option cell :=
  random_move_loop fuel ai rnd 0.

(** ** A game on a 2 x 3 board

    Mines at (1, 0) and (1, 2).  The agent plays (0, 0), whose hint is 1,
    then (0, 1), whose hint is 2.  The states below are the states of the
    agent along the second call. *)

Definition game23 : Minesweeper := mkMinesweeper 2 3 {[(1, 0); (1, 2)]}.

(** The state after [add_knowledge((0, 0), 1)]. *)
Definition ai_after_00 : MinesweeperAI :=
  mkAI 2 3 {[(0, 0)]} ∅ {[(0, 0)]}
    [Sentence.mk {[(0, 1); (1, 0); (1, 1)]} ∅ ∅ 1].

(** In [add_knowledge((0, 1), 2)]: after [moves_made.add] and [mark_safe]. *)
Definition ai_played_01 : MinesweeperAI :=
  mkAI 2 3 {[(0, 0); (0, 1)]} ∅ {[(0, 0); (0, 1)]}
    [Sentence.mk {[(1, 0); (1, 1)]} ∅ {[(0, 1)]} 1].

Definition sentence_01 : Sentence.t :=
  Sentence.mk {[(0, 2); (1, 0); (1, 1); (1, 2)]} ∅ ∅ 2.

Definition derived_cells : gset cell := {[(0, 2); (1, 2)]}.

(** After the sentence of the hint at (0, 1) is appended. *)
Definition loop_state0 : MinesweeperAI :=
  append_sentence ai_played_01 sentence_01.

(** After the derived sentence [{(0, 2), (1, 2)} = 1] is appended. *)
Definition loop_state1 : MinesweeperAI :=
  append_sentence loop_state0 (Sentence.mk derived_cells ∅ ∅ 1).

(** * Proofs *)

(** ** Running out of fuel is the only way to fail, and more fuel does not
    change a result. *)

Lemma propagate_mono f ai sf mn r :
  propagate f ai sf mn = Some r -> propagate (S f) ai sf mn = Some r.
Proof.
  revert ai sf mn. induction f as [|f IH]; intros ai sf mn H; [discriminate|].
  cbn [propagate] in H |- *.
  destruct (_ && _); [exact H|].
  destruct (scan _ _ _) as [sf' mn']. apply IH, H.
Qed.

Section Mono.

Variables rec1 rec2 : MinesweeperAI -> gset cell -> Z -> option MinesweeperAI.
Hypothesis Hrec : forall ai c k r, rec1 ai c k = Some r -> rec2 ai c k = Some r.

Lemma step_pair_mono ai i j r :
  step_pair rec1 ai i j = Some r -> step_pair rec2 ai i j = Some r.
Proof.
  unfold step_pair.
  destruct (knowledge ai !! i), (knowledge ai !! j); auto.
  repeat case_match; auto.
Qed.

Lemma inner_loop_mono js ai i r :
  inner_loop rec1 ai i js = Some r -> inner_loop rec2 ai i js = Some r.
Proof.
  revert ai. induction js as [|j js IH]; intros ai H; simpl in *; [exact H|].
  destruct (step_pair rec1 ai i j) as [ai'|] eqn:E; [|discriminate].
  rewrite (step_pair_mono _ _ _ _ E). apply IH, H.
Qed.

Lemma outer_loop_mono is ai r :
  outer_loop rec1 ai is = Some r -> outer_loop rec2 ai is = Some r.
Proof.
  revert ai. induction is as [|i is IH]; intros ai H; simpl in *; [exact H|].
  destruct (inner_loop rec1 ai i _) as [ai'|] eqn:E; [|discriminate].
  rewrite (inner_loop_mono _ _ _ _ E). apply IH, H.
Qed.

Lemma deduce_loop_mono f l0 ai r :
  deduce_loop rec1 f l0 ai = Some r -> deduce_loop rec2 (S f) l0 ai = Some r.
Proof.
  revert l0 ai. induction f as [|f IH]; intros l0 ai H; [discriminate|].
  cbn [deduce_loop] in H |- *.
  destruct (l0 <? _)%nat; [|exact H].
  destruct (outer_loop rec1 ai _) as [ai'|] eqn:E; [|discriminate].
  rewrite (outer_loop_mono _ _ _ E). apply IH, H.
Qed.

End Mono.

Lemma update_knowledge_mono f ai c k r :
  update_knowledge f ai c k = Some r -> update_knowledge (S f) ai c k = Some r.
Proof.
  revert ai c k r. induction f as [|f IH]; intros ai c k r H; [discriminate|].
  cbn [update_knowledge] in H |- *.
  destruct (scan _ _ _) as [sf mn].
  destruct (propagate f _ sf mn) as [ai2|] eqn:E; [|discriminate].
  rewrite (propagate_mono _ _ _ _ _ E).
  eapply deduce_loop_mono; [|exact H]. exact IH.
Qed.

Lemma update_knowledge_mono_le f1 f2 ai c k r :
  (f1 <= f2)%nat -> update_knowledge f1 ai c k = Some r ->
  update_knowledge f2 ai c k = Some r.
Proof.
  intros Hle. induction Hle as [|f2 Hle IH]; intros H0; [exact H0|].
  apply update_knowledge_mono; auto.
Qed.

Lemma update_knowledge_det f1 f2 ai c k r1 r2 :
  update_knowledge f1 ai c k = Some r1 -> update_knowledge f2 ai c k = Some r2 ->
  r1 = r2.
Proof.
  intros H1 H2.
  destruct (Nat.le_ge_cases f1 f2) as [Hle|Hle].
  - rewrite (update_knowledge_mono_le _ _ _ _ _ _ Hle H1) in H2. congruence.
  - rewrite (update_knowledge_mono_le _ _ _ _ _ _ Hle H2) in H1. congruence.
Qed.

Lemma add_knowledge_det f1 f2 ai c k r1 r2 :
  add_knowledge f1 ai c k = Some r1 -> add_knowledge f2 ai c k = Some r2 ->
  r1 = r2.
Proof.
  unfold add_knowledge. destruct (foldl _ _ _). apply update_knowledge_det.
Qed.

(** ** The deduction loop of the 2 x 3 game *)

Lemma deduce_loop_stuck rec f ai s1 s2 rest :
  knowledge ai = s1 :: s2 :: rest ->
  step_pair rec ai 0 0 = Some ai -> step_pair rec ai 0 1 = None ->
  deduce_loop rec f 0 ai = None.
Proof.
  intros Hk H00 H01. destruct f as [|f]; [reflexivity|].
  cbn [deduce_loop]. rewrite Hk. cbn [length seq Nat.ltb Nat.leb outer_loop].
  rewrite Hk. cbn [length seq inner_loop]. rewrite H00. rewrite H01. reflexivity.
Qed.

Lemma step_pair_state1 rec : step_pair rec loop_state1 0 1 = rec loop_state1 derived_cells 1.
Proof. reflexivity. Qed.

Lemma step_pair_state0 rec : step_pair rec loop_state0 0 1 = rec loop_state0 derived_cells 1.
Proof. reflexivity. Qed.

Lemma update_knowledge_state1 f :
  update_knowledge (S f) loop_state1 derived_cells 1 =
  match propagate f loop_state1 ∅ ∅ with
  | None => None
  | Some ai2 => deduce_loop (update_knowledge f) f 0 ai2
  end.
Proof. reflexivity. Qed.

Lemma update_knowledge_state0 f :
  update_knowledge (S f) loop_state0 derived_cells 1 =
  match propagate f loop_state1 ∅ ∅ with
  | None => None
  | Some ai2 => deduce_loop (update_knowledge f) f 0 ai2
  end.
Proof. reflexivity. Qed.

Lemma update_knowledge_loops1 f : update_knowledge f loop_state1 derived_cells 1 = None.
Proof.
  induction f as [|f IH]; [reflexivity|].
  rewrite update_knowledge_state1.
  destruct f as [|f]; [reflexivity|].
  change (propagate (S f) loop_state1 ∅ ∅) with (Some loop_state1).
  eapply deduce_loop_stuck; [reflexivity|reflexivity|].
  rewrite step_pair_state1. exact IH.
Qed.

Lemma update_knowledge_loops0 f : update_knowledge f loop_state0 derived_cells 1 = None.
Proof.
  destruct f as [|f]; [reflexivity|].
  rewrite update_knowledge_state0.
  destruct f as [|f]; [reflexivity|].
  change (propagate (S f) loop_state1 ∅ ∅) with (Some loop_state1).
  eapply deduce_loop_stuck; [reflexivity|reflexivity|].
  rewrite step_pair_state1. apply update_knowledge_loops1.
Qed.

Lemma add_knowledge_01_unfold f :
  add_knowledge (S f) ai_after_00 (0, 1) 2 =
  match propagate f loop_state0 ∅ ∅ with
  | None => None
  | Some ai2 => deduce_loop (update_knowledge f) f 0 ai2
  end.
Proof. reflexivity. Qed.

(** C3: The hints of the 2 x 3 game are the board's own counts and the
    first call returns, but the second call [add_knowledge((0, 1), 2)]
    returns for no amount of fuel: [update_knowledge] recurses without end
    (in CPython the recursion limit is hit and [RecursionError] is raised). *)
Theorem add_knowledge_diverges :
  nearby_mines game23 (0, 0) = 1 /\ nearby_mines game23 (0, 1) = 2 /\
  is_mine game23 (0, 0) = false /\ is_mine game23 (0, 1) = false /\
  add_knowledge 4 (init_ai 2 3) (0, 0) 1 = Some ai_after_00 /\
  (forall f, add_knowledge f ai_after_00 (0, 1) 2 = None).
Proof.
  split; [reflexivity|]. split; [reflexivity|].
  split; [reflexivity|]. split; [reflexivity|]. split; [reflexivity|].
  intros f. destruct f as [|f]; [reflexivity|].
  rewrite add_knowledge_01_unfold.
  destruct f as [|f]; [reflexivity|].
  change (propagate (S f) loop_state0 ∅ ∅) with (Some loop_state0).
  eapply deduce_loop_stuck; [reflexivity|reflexivity|].
  rewrite step_pair_state0. apply update_knowledge_loops0.
Qed.

(** ** Subset elimination on {A, B, C} = 1 and {A, B} = 1 *)

Definition cell_A : cell := (0, 0).
Definition cell_B : cell := (0, 1).
Definition cell_C : cell := (0, 2).

(** Two sentences on which the body of the inner deduction loop does
    nothing: they are equal, one has count 0, or neither's cells are a
    subset of the other's. *)
Definition calm_pair (s1 s2 : Sentence.t) : Prop :=
  Sentence.eqb s1 s2 = true \/ Sentence.count s1 = 0 \/ Sentence.count s2 = 0 \/
  (~ Sentence.cells s1 ⊆ Sentence.cells s2 /\ ~ Sentence.cells s2 ⊂ Sentence.cells s1).

Definition calm (ai : MinesweeperAI) : Prop :=
  forall s1 s2, s1 ∈ knowledge ai -> s2 ∈ knowledge ai -> calm_pair s1 s2.

Section Calm.

Variable rec : MinesweeperAI -> gset cell -> Z -> option MinesweeperAI.

Lemma step_pair_calm ai i j : calm ai -> step_pair rec ai i j = Some ai.
Proof.
  intros Hc. unfold step_pair.
  destruct (knowledge ai !! i) as [s1|] eqn:E1; [|reflexivity].
  destruct (knowledge ai !! j) as [s2|] eqn:E2; [|reflexivity].
  apply list_elem_of_lookup_2 in E1, E2.
  destruct (_ || _ || _) eqn:Eb; [reflexivity|].
  apply orb_false_iff in Eb as [Eb Ec2]. apply orb_false_iff in Eb as [Eq Ec1].
  apply Z.eqb_neq in Ec1, Ec2.
  destruct (Hc s1 s2 E1 E2) as [H|[H|[H|[H1 H2]]]]; [congruence|lia|lia|].
  rewrite (bool_decide_eq_false_2 _ H1), (bool_decide_eq_false_2 _ H2). reflexivity.
Qed.

Lemma inner_loop_calm ai i js : calm ai -> inner_loop rec ai i js = Some ai.
Proof.
  intros Hc. induction js as [|j js IH]; cbn [inner_loop]; [reflexivity|].
  rewrite step_pair_calm by exact Hc. exact IH.
Qed.

Lemma outer_loop_calm ai is : calm ai -> outer_loop rec ai is = Some ai.
Proof.
  intros Hc. induction is as [|i is IH]; cbn [outer_loop]; [reflexivity|].
  rewrite inner_loop_calm by exact Hc. exact IH.
Qed.

Lemma deduce_loop_calm f l0 ai : calm ai -> deduce_loop rec (S (S f)) l0 ai = Some ai.
Proof.
  intros Hc. cbn [deduce_loop].
  destruct (l0 <? length (knowledge ai))%nat; [|reflexivity].
  rewrite outer_loop_calm by exact Hc. cbn [deduce_loop].
  rewrite Nat.ltb_irrefl. reflexivity.
Qed.

End Calm.

Lemma step_pair_diag rec ai i : step_pair rec ai i i = Some ai.
Proof.
  unfold step_pair. destruct (knowledge ai !! i) as [s|]; [|reflexivity].
  unfold Sentence.eqb. rewrite (bool_decide_eq_true_2 _ eq_refl), Z.eqb_refl. reflexivity.
Qed.

Lemma inner_loop_cons rec ai i j js :
  inner_loop rec ai i (j :: js) =
  match step_pair rec ai i j with
  | None => None
  | Some ai' => inner_loop rec ai' i js
  end.
Proof. reflexivity. Qed.

Lemma outer_loop_cons rec ai i is :
  outer_loop rec ai (i :: is) =
  match inner_loop rec ai i (seq 0 (length (knowledge ai))) with
  | None => None
  | Some ai' => outer_loop rec ai' is
  end.
Proof. reflexivity. Qed.

Lemma deduce_loop_S rec f l0 ai :
  deduce_loop rec (S f) l0 ai =
  if (l0 <? length (knowledge ai))%nat then
    match outer_loop rec ai (seq 0 (length (knowledge ai))) with
    | None => None
    | Some ai' => deduce_loop rec f (length (knowledge ai)) ai'
    end
  else Some ai.
Proof. reflexivity. Qed.

Lemma update_knowledge_fresh f ai cs k sf mn :
  existsb (Sentence.eqb (Sentence.init cs k)) (knowledge ai) = false ->
  scan (knowledge ai ++ [Sentence.init cs k]) (Sentence.safes (Sentence.init cs k))
    (Sentence.mines (Sentence.init cs k)) = (sf, mn) ->
  update_knowledge (S f) ai cs k =
  match propagate f (append_sentence ai (Sentence.init cs k)) sf mn with
  | None => None
  | Some ai2 => deduce_loop (update_knowledge f) f 0 ai2
  end.
Proof.
  intros Hex Hs. cbn [update_knowledge]. rewrite Hex.
  change (knowledge (append_sentence ai (Sentence.init cs k)))
    with (knowledge ai ++ [Sentence.init cs k]).
  rewrite Hs. reflexivity.
Qed.

Lemma mark_safes_empty ai : mark_safes ai ∅ = ai.
Proof. unfold mark_safes. rewrite elements_empty. reflexivity. Qed.

Lemma mark_mines_empty ai : mark_mines ai ∅ = ai.
Proof. unfold mark_mines. rewrite elements_empty. reflexivity. Qed.

Lemma propagate_one f ai sf mn :
  scan (knowledge (mark_mines (mark_safes ai sf) mn)) ∅ ∅ = (∅, ∅) ->
  propagate (S (S f)) ai sf mn = Some (mark_mines (mark_safes ai sf) mn).
Proof.
  intros Hs. cbn [propagate].
  destruct ((size sf =? 0)%nat && (size mn =? 0)%nat) eqn:E.
  - apply andb_true_iff in E as [E1 E2]. apply Nat.eqb_eq, size_empty_inv in E1, E2.
    apply leibniz_equiv in E1, E2. subst sf mn.
    rewrite mark_safes_empty, mark_mines_empty. reflexivity.
  - rewrite Hs. cbn [propagate]. rewrite size_empty. reflexivity.
Qed.

(** A call of [update_knowledge] whose new sentence is not present yet,
    whose direct rules settle after one round of marking, and which leaves
    no subset pair, returns the state after that round. *)
Lemma update_knowledge_settles f ai cs k sf mn :
  existsb (Sentence.eqb (Sentence.init cs k)) (knowledge ai) = false ->
  scan (knowledge ai ++ [Sentence.init cs k]) (Sentence.safes (Sentence.init cs k))
    (Sentence.mines (Sentence.init cs k)) = (sf, mn) ->
  scan (knowledge (mark_mines (mark_safes (append_sentence ai (Sentence.init cs k)) sf) mn))
    ∅ ∅ = (∅, ∅) ->
  calm (mark_mines (mark_safes (append_sentence ai (Sentence.init cs k)) sf) mn) ->
  update_knowledge (S (S (S f))) ai cs k =
  Some (mark_mines (mark_safes (append_sentence ai (Sentence.init cs k)) sf) mn).
Proof.
  intros Hex Hs1 Hs2 Hc. cbn [update_knowledge]. rewrite Hex.
  change (knowledge (append_sentence ai (Sentence.init cs k)))
    with (knowledge ai ++ [Sentence.init cs k]).
  rewrite Hs1, propagate_one by exact Hs2.
  apply deduce_loop_calm, Hc.
Qed.

Section SubsetElimination.

Variables A B C : cell.
Hypothesis HAB : A <> B.
Hypothesis HAC : A <> C.
Hypothesis HBC : B <> C.

Definition S_abc : Sentence.t := Sentence.mk {[A; B; C]} ∅ ∅ 1.
Definition S_ab : Sentence.t := Sentence.mk {[A; B]} ∅ ∅ 1.
Definition S_c : Sentence.t := Sentence.mk ∅ ∅ {[C]} 0.
Definition S_abc' : Sentence.t := Sentence.mk {[A; B]} ∅ {[C]} 1.

Lemma init_abc : Sentence.init {[A; B; C]} 1 = S_abc.
Proof.
  unfold Sentence.init. rewrite !size_union by set_solver. rewrite !size_singleton.
  reflexivity.
Qed.

Lemma init_ab : Sentence.init {[A; B]} 1 = S_ab.
Proof.
  unfold Sentence.init. rewrite size_union by set_solver. rewrite !size_singleton.
  reflexivity.
Qed.

Lemma init_c : Sentence.init {[C]} 0 = S_c.
Proof. unfold Sentence.init. rewrite size_singleton. reflexivity. Qed.

Lemma eqb_true_cells s1 s2 :
  Sentence.cells s1 = Sentence.cells s2 -> Sentence.count s1 = Sentence.count s2 ->
  Sentence.eqb s1 s2 = true.
Proof.
  intros H1 H2. unfold Sentence.eqb. rewrite (bool_decide_eq_true_2 _ H1), H2, Z.eqb_refl.
  reflexivity.
Qed.

Lemma eqb_false_cells s1 s2 :
  Sentence.cells s1 <> Sentence.cells s2 -> Sentence.eqb s1 s2 = false.
Proof. intros H. unfold Sentence.eqb. rewrite (bool_decide_eq_false_2 _ H). reflexivity. Qed.

Lemma mark_safe_C_abc : Sentence.mark_safe C S_abc = S_abc'.
Proof.
  unfold Sentence.mark_safe, S_abc, S_abc'. cbn [Sentence.cells].
  rewrite bool_decide_eq_true_2 by set_solver. cbn [Sentence.mines Sentence.safes Sentence.count].
  f_equal; set_solver.
Qed.

Lemma mark_safe_C_ab : Sentence.mark_safe C S_ab = S_ab.
Proof. unfold Sentence.mark_safe, S_ab. cbn [Sentence.cells]. rewrite bool_decide_eq_false_2 by set_solver. reflexivity. Qed.

Lemma mark_safe_C_c : Sentence.mark_safe C S_c = S_c.
Proof. unfold Sentence.mark_safe, S_c. cbn [Sentence.cells]. rewrite bool_decide_eq_false_2 by set_solver. reflexivity. Qed.

Ltac calm_tac :=
  first [ left; apply eqb_true_cells; cbn; [set_solver|reflexivity]
        | right; left; reflexivity
        | right; right; left; reflexivity
        | right; right; right; cbn; split; set_solver ].

Ltac calm_list :=
  intros s1 s2 H1 H2; cbn [knowledge mark_safe append_sentence app map] in H1, H2;
  rewrite ?mark_safe_C_abc, ?mark_safe_C_ab, ?mark_safe_C_c in H1, H2;
  apply list_elem_of_In in H1, H2; cbn [In] in H1, H2;
  repeat (destruct H1 as [<-|H1]); try contradiction;
  repeat (destruct H2 as [<-|H2]); try contradiction;
  unfold S_abc, S_ab, S_c, S_abc', calm_pair; calm_tac.

Lemma size_ab : Z.of_nat (size ({[A; B]} : gset cell)) = 2.
Proof. rewrite size_union by set_solver. rewrite !size_singleton. reflexivity. Qed.

Lemma size_abc : Z.of_nat (size ({[A; B; C]} : gset cell)) = 3.
Proof. rewrite !size_union by set_solver. rewrite !size_singleton. reflexivity. Qed.

(** The first ingest, on a fresh agent, only appends its sentence. *)
Lemma ingest_first (h w : Z) (s : Sentence.t) (cs : gset cell) f :
  Sentence.init cs 1 = s -> (s = S_abc \/ s = S_ab) ->
  update_knowledge (S (S (S f))) (init_ai h w) cs 1 = Some (mkAI h w ∅ ∅ ∅ [s]).
Proof.
  intros Hi Hs. rewrite (update_knowledge_settles f (init_ai h w) cs 1 ∅ ∅).
  - rewrite mark_safes_empty, mark_mines_empty, Hi. reflexivity.
  - reflexivity.
  - rewrite Hi. destruct Hs as [->| ->]; unfold scan, scan_step, S_abc, S_ab; cbn.
    + rewrite size_abc. reflexivity.
    + rewrite size_ab. reflexivity.
  - rewrite mark_safes_empty, mark_mines_empty, Hi.
    destruct Hs as [->| ->]; unfold scan, scan_step, S_abc, S_ab; cbn.
    + rewrite size_abc. reflexivity.
    + rewrite size_ab. reflexivity.
  - rewrite mark_safes_empty, mark_mines_empty, Hi.
    destruct Hs as [->| ->]; calm_list.
Qed.


Lemma elements_singleton_foldl ai : mark_safes ai {[C]} = mark_safe ai C.
Proof. unfold mark_safes. rewrite elements_singleton. reflexivity. Qed.

Lemma scan_pair_empty (s1 s2 : Sentence.t) :
  (s1, s2) = (S_abc, S_ab) \/ (s1, s2) = (S_ab, S_abc) ->
  scan [s1; s2] ∅ ∅ = (∅, ∅).
Proof.
  intros [E|E]; injection E as -> ->; unfold scan, scan_step, S_abc, S_ab; cbn;
    rewrite size_abc, size_ab; reflexivity.
Qed.

Lemma diff_abc_ab : ({[A; B; C]} : gset cell) ∖ {[A; B]} = {[C]}.
Proof. set_solver. Qed.

Lemma calm_final (h w : Z) (s1 s2 : Sentence.t) :
  (s1, s2) = (S_abc, S_ab) \/ (s1, s2) = (S_ab, S_abc) ->
  calm (mark_safe (append_sentence (mkAI h w ∅ ∅ ∅ [s1; s2]) S_c) C).
Proof. intros [E|E]; injection E as -> ->; calm_list. Qed.

(** The inner call on [({C}, 0)]. *)
Lemma ingest_c (h w : Z) (s1 s2 : Sentence.t) f :
  (s1, s2) = (S_abc, S_ab) \/ (s1, s2) = (S_ab, S_abc) ->
  update_knowledge (S (S (S f))) (mkAI h w ∅ ∅ ∅ [s1; s2]) {[C]} 0 =
  Some (mark_safe (append_sentence (mkAI h w ∅ ∅ ∅ [s1; s2]) S_c) C).
Proof.
  intros Hs. rewrite (update_knowledge_settles f _ {[C]} 0 {[C]} ∅).
  - rewrite mark_mines_empty, elements_singleton_foldl, init_c. reflexivity.
  - rewrite init_c. cbn [knowledge existsb].
    destruct Hs as [E|E]; injection E as -> ->;
      rewrite !eqb_false_cells by (cbn; set_solver); reflexivity.
  - rewrite init_c. cbn [knowledge app].
    destruct Hs as [E|E]; injection E as -> ->; unfold scan, scan_step, S_abc, S_ab, S_c; cbn;
      rewrite ?size_abc, ?size_ab; cbn; f_equal; set_solver.
  - rewrite mark_mines_empty, elements_singleton_foldl, init_c. cbn [knowledge mark_safe append_sentence app map].
    destruct Hs as [E|E]; injection E as -> ->;
      rewrite !mark_safe_C_abc, !mark_safe_C_ab, !mark_safe_C_c;
      unfold scan, scan_step, S_abc, S_ab, S_abc', S_c; cbn;
      rewrite ?size_abc, ?size_ab; cbn; f_equal; set_solver.
  - rewrite mark_mines_empty, elements_singleton_foldl, init_c. apply calm_final, Hs.
Qed.


(** The second ingest: the pair of sentences triggers one recursive call
    on [({C}, 0)], which marks [C] safe; after it nothing changes. *)
Lemma ingest_second (h w : Z) (s1 s2 : Sentence.t) (cs : gset cell) f :
  (s1, s2) = (S_abc, S_ab) \/ (s1, s2) = (S_ab, S_abc) ->
  Sentence.init cs 1 = s2 ->
  update_knowledge (S (S (S (S (S (S f)))))) (mkAI h w ∅ ∅ ∅ [s1]) cs 1 =
  Some (mark_safe (append_sentence (mkAI h w ∅ ∅ ∅ [s1; s2]) S_c) C).
Proof.
  intros Hs Hi. rewrite (update_knowledge_fresh _ _ _ _ ∅ ∅).
  2:{ rewrite Hi. cbn [knowledge existsb].
      destruct Hs as [E|E]; injection E as -> ->;
        rewrite !eqb_false_cells by (cbn; set_solver); reflexivity. }
  2:{ rewrite Hi. destruct Hs as [E|E]; pose proof (scan_pair_empty _ _ (or_introl E)) as Es
        || pose proof (scan_pair_empty _ _ (or_intror E)) as Es;
        injection E as -> ->; exact Es. }
  rewrite propagate_one
    by (rewrite mark_safes_empty, mark_mines_empty, Hi; exact (scan_pair_empty s1 s2 Hs)).
  rewrite mark_safes_empty, mark_mines_empty, Hi, deduce_loop_S.
  cbn [knowledge append_sentence app length Nat.ltb Nat.leb seq].
  rewrite outer_loop_cons. cbn [knowledge append_sentence app length seq].
  rewrite inner_loop_cons, step_pair_diag, inner_loop_cons.
  unfold step_pair at 1. cbn [knowledge append_sentence app].
  change ([s1; s2] !! 0%nat) with (Some s1). change ([s1; s2] !! 1%nat) with (Some s2).
  cbv beta iota.
  change (append_sentence (mkAI h w ∅ ∅ ∅ [s1]) s2) with (mkAI h w ∅ ∅ ∅ [s1; s2]).
  assert (Hf : forall ai, (s1, s2) = (S_abc, S_ab) \/ (s1, s2) = (S_ab, S_abc) ->
    (if Sentence.eqb s1 s2 || (Sentence.count s1 =? 0) || (Sentence.count s2 =? 0)
     then Some ai
     else if bool_decide (Sentence.cells s1 ⊆ Sentence.cells s2)
     then update_knowledge (S (S (S (S (S f))))) ai (Sentence.cells s2 ∖ Sentence.cells s1)
            (Sentence.count s2 - Sentence.count s1)
     else if bool_decide (Sentence.cells s2 ⊂ Sentence.cells s1)
     then update_knowledge (S (S (S (S (S f))))) ai (Sentence.cells s1 ∖ Sentence.cells s2)
            (Sentence.count s1 - Sentence.count s2)
     else Some ai) = update_knowledge (S (S (S (S (S f))))) ai {[C]} 0).
  { intros ai [E|E]; injection E as -> ->;
      rewrite eqb_false_cells by (cbn; set_solver); cbn [orb S_abc S_ab Sentence.count Z.eqb].
    - rewrite bool_decide_eq_false_2 by (cbn; set_solver).
      rewrite bool_decide_eq_true_2 by (cbn; set_solver).
      cbn [S_abc S_ab Sentence.cells Sentence.count]. rewrite diff_abc_ab. reflexivity.
    - rewrite bool_decide_eq_true_2 by (cbn; set_solver).
      cbn [S_abc S_ab Sentence.cells Sentence.count]. rewrite diff_abc_ab. reflexivity. }
  rewrite Hf, ingest_c by exact Hs. cbn [inner_loop].
  rewrite outer_loop_cons, inner_loop_calm by (apply calm_final, Hs).
  cbn [outer_loop]. apply deduce_loop_calm, calm_final, Hs.
Qed.


Lemma final_state_ok (h w : Z) (s1 s2 : Sentence.t) :
  (s1, s2) = (S_abc, S_ab) \/ (s1, s2) = (S_ab, S_abc) ->
  let r := mark_safe (append_sentence (mkAI h w ∅ ∅ ∅ [s1; s2]) S_c) C in
  C ∈ safes r /\ existsb (Sentence.eqb (Sentence.init {[C]} 0)) (knowledge r) = true.
Proof.
  intros Hs r. split; [cbn; set_solver|].
  apply existsb_exists. exists S_c. split.
  - cbn [r mark_safe knowledge append_sentence app map]. rewrite mark_safe_C_c.
    cbn [In]. tauto.
  - rewrite init_c. apply eqb_true_cells; reflexivity.
Qed.

(** Both orders of ingest end in the state of [final_state_ok]. *)
Lemma two_ingests (h w : Z) (first second : gset cell * Z) (f1 f2 : nat)
    (r1 r2 : MinesweeperAI) :
  (first, second) = (({[A; B; C]}, 1), ({[A; B]}, 1)) \/
  (first, second) = (({[A; B]}, 1), ({[A; B; C]}, 1)) ->
  update_knowledge f1 (init_ai h w) first.1 first.2 = Some r1 ->
  update_knowledge f2 r1 second.1 second.2 = Some r2 ->
  exists s1 s2, ((s1, s2) = (S_abc, S_ab) \/ (s1, s2) = (S_ab, S_abc)) /\
    r2 = mark_safe (append_sentence (mkAI h w ∅ ∅ ∅ [s1; s2]) S_c) C.
Proof.
  intros [E|E] H1 H2; injection E as -> ->; cbn [fst snd] in H1, H2.
  - pose proof (ingest_first h w S_abc {[A; B; C]} 0 init_abc (or_introl eq_refl)) as E1.
    rewrite (update_knowledge_det _ _ _ _ _ _ _ H1 E1) in H2.
    pose proof (ingest_second h w S_abc S_ab {[A; B]} 0 (or_introl eq_refl) init_ab) as E2.
    exists S_abc, S_ab. split; [left; reflexivity|].
    exact (update_knowledge_det _ _ _ _ _ _ _ H2 E2).
  - pose proof (ingest_first h w S_ab {[A; B]} 0 init_ab (or_intror eq_refl)) as E1.
    rewrite (update_knowledge_det _ _ _ _ _ _ _ H1 E1) in H2.
    pose proof (ingest_second h w S_ab S_abc {[A; B; C]} 0 (or_intror eq_refl) init_abc) as E2.
    exists S_ab, S_abc. split; [right; reflexivity|].
    exact (update_knowledge_det _ _ _ _ _ _ _ H2 E2).
Qed.

End SubsetElimination.

(** C1: for any three distinct cells A, B, C, a fresh agent that ingests
    ({A, B, C}, 1) and ({A, B}, 1) through [update_knowledge], in either
    order, has C among its known safe cells once the second call returns,
    and its knowledge holds the derived sentence ({C}, 0). *)
Theorem subset_elimination_safe (h w : Z) (A B C : cell)
    (first second : gset cell * Z) (f1 f2 : nat) (r1 r2 : MinesweeperAI) :
  A <> B -> A <> C -> B <> C ->
  (first, second) = (({[A; B; C]}, 1), ({[A; B]}, 1)) \/
  (first, second) = (({[A; B]}, 1), ({[A; B; C]}, 1)) ->
  update_knowledge f1 (init_ai h w) first.1 first.2 = Some r1 ->
  update_knowledge f2 r1 second.1 second.2 = Some r2 ->
  C ∈ safes r2 /\
  existsb (Sentence.eqb (Sentence.init {[C]} 0)) (knowledge r2) = true.
Proof.
  intros HAB HAC HBC Hord H1 H2.
  destruct (two_ingests A B C HAB HAC HBC h w first second f1 f2 r1 r2 Hord H1 H2)
    as (s1 & s2 & Hs & ->).
  exact (final_state_ok A B C HAB HAC HBC h w s1 s2 Hs).
Qed.

Lemma subset_elimination_safe_witness :
  exists r1 r2,
    update_knowledge 10 (init_ai 8 8) {[cell_A; cell_B; cell_C]} 1 = Some r1 /\
    update_knowledge 10 r1 {[cell_A; cell_B]} 1 = Some r2 /\
    cell_C ∈ safes r2 /\
    existsb (Sentence.eqb (Sentence.init {[cell_C]} 0)) (knowledge r2) = true.
Proof.
  assert (H1 : update_knowledge 10 (init_ai 8 8) {[cell_A; cell_B; cell_C]} 1 =
               Some (mkAI 8 8 ∅ ∅ ∅ [Sentence.mk {[cell_A; cell_B; cell_C]} ∅ ∅ 1]))
    by reflexivity.
  destruct (update_knowledge 10 (mkAI 8 8 ∅ ∅ ∅
              [Sentence.mk {[cell_A; cell_B; cell_C]} ∅ ∅ 1]) {[cell_A; cell_B]} 1)
    as [r2|] eqn:H2; [|vm_compute in H2; discriminate H2].
  exists (mkAI 8 8 ∅ ∅ ∅ [Sentence.mk {[cell_A; cell_B; cell_C]} ∅ ∅ 1]), r2.
  split; [exact H1|]. split; [exact H2|].
  assert (HAB : cell_A <> cell_B) by discriminate.
  assert (HAC : cell_A <> cell_C) by discriminate.
  assert (HBC : cell_B <> cell_C) by discriminate.
  exact (subset_elimination_safe 8 8 cell_A cell_B cell_C ({[cell_A; cell_B; cell_C]}, 1)
           ({[cell_A; cell_B]}, 1) 10 10 _ r2 HAB HAC HBC (or_introl eq_refl) H1 H2).
Defined.

(** ** Invariants preserved by [update_knowledge]

    A property [P] of the agent state is preserved by every returning call
    of [update_knowledge] on arguments satisfying [Arg] when it is preserved
    by marking cells accepted by [okS] (as safe) and [okM] (as mines), by
    appending the sentence built from accepted arguments, when the
    degenerate sentences only ever yield accepted cells, and when subset
    elimination only produces accepted arguments. *)

Section Preserve.

Variable P : MinesweeperAI -> Prop.
Variable Arg : MinesweeperAI -> gset cell -> Z -> Prop.
Variables okS okM : cell -> Prop.

Hypothesis H_mark_safe : forall ai c, P ai -> okS c -> P (mark_safe ai c).
Hypothesis H_mark_mine : forall ai c, P ai -> okM c -> P (mark_mine ai c).
Hypothesis H_new : forall ai cs k, P ai -> Arg ai cs k ->
  P (append_sentence ai (Sentence.init cs k)) /\
  (forall x, x ∈ Sentence.safes (Sentence.init cs k) -> okS x) /\
  (forall x, x ∈ Sentence.mines (Sentence.init cs k) -> okM x).
Hypothesis H_scan : forall ai s, P ai -> s ∈ knowledge ai ->
  (Sentence.count s = 0 -> forall x, x ∈ Sentence.cells s -> okS x) /\
  (Sentence.count s <> 0 -> Z.of_nat (size (Sentence.cells s)) = Sentence.count s ->
   forall x, x ∈ Sentence.cells s -> okM x).
Hypothesis H_pair : forall ai s1 s2, P ai ->
  s1 ∈ knowledge ai -> s2 ∈ knowledge ai ->
  Sentence.cells s1 ⊆ Sentence.cells s2 ->
  Arg ai (Sentence.cells s2 ∖ Sentence.cells s1) (Sentence.count s2 - Sentence.count s1).

Definition all_okS (X : gset cell) : Prop := forall x, x ∈ X -> okS x.
Definition all_okM (X : gset cell) : Prop := forall x, x ∈ X -> okM x.

Lemma mark_safes_pres ai sf : P ai -> all_okS sf -> P (mark_safes ai sf).
Proof.
  unfold mark_safes, all_okS. intros HP Hok.
  assert (Hl : forall x, x ∈ elements sf -> okS x)
    by (intros x Hx; apply Hok; apply elem_of_elements, Hx).
  clear Hok. revert ai HP. induction (elements sf) as [|x l IH]; intros ai HP;
    simpl; [exact HP|].
  apply IH; [intros y Hy; apply Hl; set_solver|].
  apply H_mark_safe; [exact HP|apply Hl; set_solver].
Qed.

Lemma mark_mines_pres ai mn : P ai -> all_okM mn -> P (mark_mines ai mn).
Proof.
  unfold mark_mines, all_okM. intros HP Hok.
  assert (Hl : forall x, x ∈ elements mn -> okM x)
    by (intros x Hx; apply Hok; apply elem_of_elements, Hx).
  clear Hok. revert ai HP. induction (elements mn) as [|x l IH]; intros ai HP;
    simpl; [exact HP|].
  apply IH; [intros y Hy; apply Hl; set_solver|].
  apply H_mark_mine; [exact HP|apply Hl; set_solver].
Qed.

Lemma scan_pres ai l sf0 mn0 sf mn :
  P ai -> (forall s, s ∈ l -> s ∈ knowledge ai) ->
  all_okS sf0 -> all_okM mn0 -> foldl scan_step (sf0, mn0) l = (sf, mn) ->
  all_okS sf /\ all_okM mn.
Proof.
  intros HP. revert sf0 mn0.
  induction l as [|s l IH]; intros sf0 mn0 Hin Hs Hm Heq; simpl in Heq.
  - injection Heq as <- <-. auto.
  - destruct (H_scan ai s HP (Hin s ltac:(set_solver))) as [H0 H1].
    assert (Hin' : forall t, t ∈ l -> t ∈ knowledge ai)
      by (intros t Ht; apply Hin; set_solver).
    destruct (Sentence.count s =? 0) eqn:Ec.
    + apply Z.eqb_eq in Ec. eapply IH; [exact Hin'| |exact Hm|exact Heq].
      intros x Hx. apply elem_of_union in Hx as [Hx|Hx]; auto.
    + apply Z.eqb_neq in Ec.
      destruct (Z.of_nat (size (Sentence.cells s)) =? Sentence.count s) eqn:Ez.
      * apply Z.eqb_eq in Ez. eapply IH; [exact Hin'|exact Hs| |exact Heq].
        intros x Hx. apply elem_of_union in Hx as [Hx|Hx]; auto.
      * eapply IH; eauto.
Qed.

Lemma propagate_pres f ai sf mn r :
  P ai -> all_okS sf -> all_okM mn -> propagate f ai sf mn = Some r -> P r.
Proof.
  revert ai sf mn. induction f as [|f IH]; intros ai sf mn HP Hs Hm H;
    [discriminate|].
  cbn [propagate] in H. destruct (_ && _); [congruence|].
  destruct (scan _ _ _) as [sf' mn'] eqn:Es.
  assert (HP' : P (mark_mines (mark_safes ai sf) mn))
    by (apply mark_mines_pres; [apply mark_safes_pres|]; assumption).
  unfold scan in Es.
  destruct (scan_pres _ _ ∅ ∅ _ _ HP' (fun s Hs => Hs)
              (fun x Hx => ltac:(set_solver)) (fun x Hx => ltac:(set_solver)) Es).
  eapply IH; eauto.
Qed.

Section PreserveLoops.

Variable rec : MinesweeperAI -> gset cell -> Z -> option MinesweeperAI.
Hypothesis Hrec : forall ai c k r, P ai -> Arg ai c k -> rec ai c k = Some r -> P r.

Lemma step_pair_pres ai i j r : P ai -> step_pair rec ai i j = Some r -> P r.
Proof.
  intros HP. unfold step_pair.
  destruct (knowledge ai !! i) as [s1|] eqn:E1; [|congruence].
  destruct (knowledge ai !! j) as [s2|] eqn:E2; [|congruence].
  apply list_elem_of_lookup_2 in E1, E2.
  destruct (_ || _ || _); [congruence|].
  destruct (bool_decide (Sentence.cells s1 ⊆ Sentence.cells s2)) eqn:Hsub.
  - apply bool_decide_eq_true in Hsub. intros H.
    eapply Hrec; [exact HP| |exact H]. apply H_pair; auto.
  - destruct (bool_decide (Sentence.cells s2 ⊂ Sentence.cells s1)) eqn:Hsup;
      [|congruence].
    apply bool_decide_eq_true in Hsup. intros H.
    eapply Hrec; [exact HP| |exact H]. apply H_pair; auto. set_solver.
Qed.

Lemma inner_loop_pres js ai i r : P ai -> inner_loop rec ai i js = Some r -> P r.
Proof.
  revert ai. induction js as [|j js IH]; intros ai HP H; simpl in H; [congruence|].
  destruct (step_pair rec ai i j) as [ai'|] eqn:E; [|discriminate].
  eapply IH; [eapply step_pair_pres; eauto|exact H].
Qed.

Lemma outer_loop_pres is ai r : P ai -> outer_loop rec ai is = Some r -> P r.
Proof.
  revert ai. induction is as [|i is IH]; intros ai HP H; simpl in H; [congruence|].
  destruct (inner_loop rec ai i _) as [ai'|] eqn:E; [|discriminate].
  eapply IH; [eapply inner_loop_pres; eauto|exact H].
Qed.

Lemma deduce_loop_pres f l0 ai r : P ai -> deduce_loop rec f l0 ai = Some r -> P r.
Proof.
  revert l0 ai. induction f as [|f IH]; intros l0 ai HP H; [discriminate|].
  cbn [deduce_loop] in H. destruct (l0 <? _)%nat; [|congruence].
  destruct (outer_loop rec ai _) as [ai'|] eqn:E; [|discriminate].
  eapply IH; [eapply outer_loop_pres; eauto|exact H].
Qed.

End PreserveLoops.

Lemma update_knowledge_pres f ai cs k r :
  P ai -> Arg ai cs k -> update_knowledge f ai cs k = Some r -> P r.
Proof.
  revert ai cs k r. induction f as [|f IH]; intros ai cs k r HP HA H; [discriminate|].
  cbn [update_knowledge] in H.
  destruct (H_new ai cs k HP HA) as (Happ & Hs & Hm).
  destruct (existsb _ _) in H;
    [assert (HP1 : P ai) by assumption|assert (HP1 := Happ)];
    (destruct (scan _ _ _) as [sf mn] eqn:Es;
     unfold scan in Es;
     destruct (scan_pres _ _ _ _ _ _ HP1 (fun s Hs => Hs) Hs Hm Es) as [Hsf Hmn];
     destruct (propagate _ _ sf mn) as [ai2|] eqn:Ep; [|discriminate];
     eapply deduce_loop_pres; [exact IH| |exact H];
     eapply propagate_pres; eauto).
Qed.

End Preserve.

(** ** The known safe and mine cells only grow *)

Definition grown (X Y : gset cell) (ai : MinesweeperAI) : Prop :=
  X ⊆ safes ai /\ Y ⊆ mines ai.

Lemma grown_mark_safe X Y ai c : grown X Y ai -> grown X Y (mark_safe ai c).
Proof. unfold grown, mark_safe; simpl. set_solver. Qed.

Lemma grown_mark_mine X Y ai c : grown X Y ai -> grown X Y (mark_mine ai c).
Proof. unfold grown, mark_mine; simpl. set_solver. Qed.

Lemma update_knowledge_grows f ai cs k r :
  update_knowledge f ai cs k = Some r -> safes ai ⊆ safes r /\ mines ai ⊆ mines r.
Proof.
  apply (update_knowledge_pres (grown (safes ai) (mines ai)) (fun _ _ _ => True)
           (fun _ => True) (fun _ => True)); try easy.
  - intros ai' c H _. apply grown_mark_safe, H.
  - intros ai' c H _. apply grown_mark_mine, H.
Qed.

Lemma propagate_grows f ai sf mn r :
  propagate f ai sf mn = Some r -> safes ai ⊆ safes r /\ mines ai ⊆ mines r.
Proof.
  intros H. eapply (propagate_pres (grown (safes ai) (mines ai)) (fun _ _ _ => True)
    (fun _ => True) (fun _ => True)); try easy.
  - intros ai' c H' _. apply grown_mark_safe, H'.
  - intros ai' c H' _. apply grown_mark_mine, H'.
  - unfold grown. set_solver.
Qed.

Lemma deduce_loop_grows f l0 ai r :
  deduce_loop (update_knowledge f) f l0 ai = Some r ->
  safes ai ⊆ safes r /\ mines ai ⊆ mines r.
Proof.
  intros H.
  refine (deduce_loop_pres (grown (safes ai) (mines ai))
    (fun _ _ _ => True) (fun _ => True) (fun _ => True) _ _ _ _ _
    (update_knowledge f) _ f l0 ai r _ H); try easy.
  - intros ai' c H' _. apply grown_mark_safe, H'.
  - intros ai' c H' _. apply grown_mark_mine, H'.
  - intros ai' c k r' H' _ E. destruct (update_knowledge_grows _ _ _ _ _ E).
    destruct H'. split; etransitivity; eauto.
Qed.

Lemma mark_safes_safes l ai x :
  x ∈ safes (foldl mark_safe ai l) <-> x ∈ l \/ x ∈ safes ai.
Proof.
  revert ai. induction l as [|y l IH]; intros ai; simpl; [set_solver|].
  rewrite IH. unfold mark_safe; simpl. set_solver.
Qed.

Lemma mark_safes_mines l ai : mines (foldl mark_safe ai l) = mines ai.
Proof. revert ai. induction l as [|y l IH]; intros ai; simpl; [done|]. by rewrite IH. Qed.

Lemma mark_mines_mines l ai x :
  x ∈ mines (foldl mark_mine ai l) <-> x ∈ l \/ x ∈ mines ai.
Proof.
  revert ai. induction l as [|y l IH]; intros ai; simpl; [set_solver|].
  rewrite IH. unfold mark_mine; simpl. set_solver.
Qed.

Lemma mark_mines_safes l ai : safes (foldl mark_mine ai l) = safes ai.
Proof. revert ai. induction l as [|y l IH]; intros ai; simpl; [done|]. by rewrite IH. Qed.

Lemma scan_grows l sf0 mn0 sf mn :
  foldl scan_step (sf0, mn0) l = (sf, mn) -> sf0 ⊆ sf /\ mn0 ⊆ mn.
Proof.
  revert sf0 mn0. induction l as [|s l IH]; intros sf0 mn0 H; simpl in H.
  - injection H as <- <-. done.
  - destruct (Sentence.count s =? 0); [|destruct (_ =? _)];
      apply IH in H; set_solver.
Qed.

(** The first round of the propagation loop marks the cells it starts with. *)
Lemma propagate_marks f ai sf mn r :
  propagate f ai sf mn = Some r -> sf ⊆ safes r /\ mn ⊆ mines r.
Proof.
  destruct f as [|f]; [discriminate|]. cbn [propagate].
  destruct ((size sf =? 0)%nat && (size mn =? 0)%nat) eqn:E.
  - apply andb_true_iff in E as [E1 E2]. apply Nat.eqb_eq in E1, E2.
    apply size_empty_iff in E1, E2. set_solver.
  - destruct (scan _ _ _) as [sf' mn']. intros H.
    destruct (propagate_grows _ _ _ _ _ H) as [Hs Hm].
    unfold mark_mines, mark_safes in *.
    split; intros x Hx.
    + apply Hs. rewrite mark_mines_safes, mark_safes_safes, elem_of_elements. auto.
    + apply Hm. rewrite mark_mines_mines, elem_of_elements. auto.
Qed.

(** What a call learns from the degenerate form of its own sentence. *)
Lemma update_knowledge_marks f ai cs k r :
  update_knowledge f ai cs k = Some r ->
  Sentence.safes (Sentence.init cs k) ⊆ safes r /\
  Sentence.mines (Sentence.init cs k) ⊆ mines r.
Proof.
  destruct f as [|f]; [discriminate|]. cbn [update_knowledge].
  destruct (existsb _ _);
    (destruct (scan _ _ _) as [sf mn] eqn:Es; unfold scan in Es;
     apply scan_grows in Es as [Hs Hm];
     destruct (propagate _ _ sf mn) as [ai2|] eqn:Ep; [|discriminate];
     intros H; apply propagate_marks in Ep as [Hs2 Hm2];
     apply deduce_loop_grows in H as [Hs3 Hm3]; set_solver).
Qed.

Lemma size_pair (a b : cell) : a <> b -> size ({[a; b]} : gset cell) = 2%nat.
Proof.
  intros Hab. rewrite size_union by set_solver. by rewrite !size_singleton.
Qed.

(** ** Degenerate sentences *)

(** C4: whatever the state, a returning [update_knowledge({A, B}, 0)] leaves
    A and B in [self.safes], and a returning [update_knowledge({A, B}, 2)]
    leaves A and B in [self.mines]. *)
Theorem degenerate_resolution (f : nat) (ai r0 r2 : MinesweeperAI) (a b : cell) :
  a <> b ->
  (update_knowledge f ai {[a; b]} 0 = Some r0 -> a ∈ safes r0 /\ b ∈ safes r0) /\
  (update_knowledge f ai {[a; b]} 2 = Some r2 -> a ∈ mines r2 /\ b ∈ mines r2).
Proof.
  intros Hab. split; intros H; apply update_knowledge_marks in H as [Hs Hm].
  - unfold Sentence.init in Hs. rewrite size_pair in Hs by exact Hab.
    simpl in Hs. set_solver.
  - unfold Sentence.init in Hm. rewrite size_pair in Hm by exact Hab.
    simpl in Hm. set_solver.
Qed.

Lemma degenerate_resolution_witness :
  exists r0 r2,
    update_knowledge 5 (init_ai 8 8) {[cell_A; cell_B]} 0 = Some r0 /\
    update_knowledge 5 (init_ai 8 8) {[cell_A; cell_B]} 2 = Some r2 /\
    (cell_A ∈ safes r0 /\ cell_B ∈ safes r0) /\
    (cell_A ∈ mines r2 /\ cell_B ∈ mines r2).
Proof.
  destruct (update_knowledge 5 (init_ai 8 8) {[cell_A; cell_B]} 0) as [r0|] eqn:H0;
    [|vm_compute in H0; discriminate H0].
  destruct (update_knowledge 5 (init_ai 8 8) {[cell_A; cell_B]} 2) as [r2|] eqn:H2;
    [|vm_compute in H2; discriminate H2].
  assert (Hab : cell_A <> cell_B) by discriminate.
  destruct (degenerate_resolution 5 (init_ai 8 8) r0 r2 cell_A cell_B Hab)
    as [P0 P2].
  exists r0, r2. split; [reflexivity|]. split; [reflexivity|].
  split; [exact (P0 H0)|exact (P2 H2)].
Defined.

(** ** The played cell is marked safe unconditionally *)

Lemma add_knowledge_unfold f ai c k :
  add_knowledge f ai c k =
  let ai1 := mark_safe (add_move ai c) c in
  update_knowledge f ai1
    (foldl (neighbor_step ai1 c) (k, ∅) neighbor_vectors).2
    (foldl (neighbor_step ai1 c) (k, ∅) neighbor_vectors).1.
Proof.
  unfold add_knowledge. cbv zeta.
  destruct (foldl (neighbor_step (mark_safe (add_move ai c) c) c) (k, ∅)
              neighbor_vectors); reflexivity.
Qed.

(** C10: when the played cell is already a known mine, a returning
    [add_knowledge(cell, count)] leaves it in both [self.safes] and
    [self.mines]. *)
Theorem add_knowledge_mine_also_safe (f : nat) (ai r : MinesweeperAI) (c : cell)
    (k : Z) :
  c ∈ mines ai -> add_knowledge f ai c k = Some r -> c ∈ safes r /\ c ∈ mines r.
Proof.
  intros Hc H. rewrite add_knowledge_unfold in H. simpl in H.
  apply update_knowledge_grows in H as [Hs Hm]. simpl in Hs, Hm.
  split; [apply Hs|apply Hm]; set_solver.
Qed.

(** On a 1 x 2 board, the hint 1 at (0, 0) makes (0, 1) a known mine. *)
Definition ai_1x2_mine : MinesweeperAI :=
  mkAI 1 2 {[(0, 0)]} {[(0, 1)]} {[(0, 0)]} [Sentence.mk ∅ {[(0, 1)]} ∅ 0].

Lemma add_knowledge_mine_also_safe_witness :
  add_knowledge 5 (init_ai 1 2) (0, 0) 1 = Some ai_1x2_mine /\
  exists r, add_knowledge 5 ai_1x2_mine (0, 1) 0 = Some r /\
            (0, 1) ∈ safes r /\ (0, 1) ∈ mines r.
Proof.
  split; [reflexivity|].
  destruct (add_knowledge 5 ai_1x2_mine (0, 1) 0) as [r|] eqn:H;
    [|vm_compute in H; discriminate H].
  exists r. split; [reflexivity|].
  apply (add_knowledge_mine_also_safe 5 ai_1x2_mine r (0, 1) 0); [|exact H].
  apply (bool_decide_unpack _). reflexivity.
Defined.

(** ** The sentence built by [add_knowledge] *)

(** The grid-adjacent cells of [c], in the order of [self.neighbor_vectors]. *)
Definition neighbor_cells (c : cell) : list cell :=
  map (fun v : Z * Z => (c.1 + v.1, c.2 + v.2)) neighbor_vectors.

(** In bounds and not in [moves_made]. *)
Definition fresh_neighbor (ai : MinesweeperAI) (n : cell) : bool :=
  in_range n.1 0 (height ai) && in_range n.2 0 (width ai)
  && negb (bool_decide (n ∈ moves_made ai)).

(** The claim's description: the cells of the new sentence are the fresh
    neighbors that are neither known safe nor known mines, and the count
    loses one for every fresh neighbor that is a known mine. *)
Definition expected_cells (ai : MinesweeperAI) (c : cell) : gset cell :=
  list_to_set (List.filter (fun n => fresh_neighbor ai n
                 && negb (bool_decide (n ∈ safes ai))
                 && negb (bool_decide (n ∈ mines ai))) (neighbor_cells c)).

Definition expected_count (ai : MinesweeperAI) (c : cell) (k : Z) : Z :=
  k - Z.of_nat (length (List.filter (fun n => fresh_neighbor ai n
                          && bool_decide (n ∈ mines ai)) (neighbor_cells c))).

Lemma neighbor_fold ai c vs k0 N0 :
  foldl (neighbor_step ai c) (k0, N0) vs =
  (k0 - Z.of_nat (length (List.filter (fun n => fresh_neighbor ai n
                   && bool_decide (n ∈ mines ai))
          (map (fun v : Z * Z => (c.1 + v.1, c.2 + v.2)) vs))),
   N0 ∪ list_to_set (List.filter (fun n => fresh_neighbor ai n
                   && negb (bool_decide (n ∈ safes ai))
                   && negb (bool_decide (n ∈ mines ai)))
          (map (fun v : Z * Z => (c.1 + v.1, c.2 + v.2)) vs))).
Proof.
  revert k0 N0. induction vs as [|v vs IH]; intros k0 N0; simpl.
  - f_equal; [lia|set_solver].
  - change (fresh_neighbor ai (c.1 + v.1, c.2 + v.2)) with
      (in_range (c.1 + v.1) 0 (height ai) && in_range (c.2 + v.2) 0 (width ai)
       && negb (bool_decide ((c.1 + v.1, c.2 + v.2) ∈ moves_made ai))).
    destruct (in_range _ _ _ && in_range _ _ _ && _) eqn:Ef; simpl.
    + destruct (bool_decide ((c.1 + v.1, c.2 + v.2) ∈ mines ai)) eqn:Em;
        simpl; rewrite ?andb_true_r, ?andb_false_r; simpl.
      * rewrite IH. f_equal; try lia; try set_solver.
      * destruct (bool_decide ((c.1 + v.1, c.2 + v.2) ∈ safes ai)); simpl;
          rewrite IH; f_equal; try lia; try set_solver.
    + rewrite IH. reflexivity.
Qed.

Lemma neighbor_cells_ne c n : In n (neighbor_cells c) -> n <> c.
Proof.
  destruct c as [x y]. unfold neighbor_cells, neighbor_vectors. simpl.
  intros H. repeat destruct H as [<-|H]; try contradiction;
    intros E; injection E; lia.
Qed.

Lemma fresh_neighbor_played ai c n :
  n <> c -> fresh_neighbor (mark_safe (add_move ai c) c) n = fresh_neighbor ai n.
Proof.
  intros Hn. unfold fresh_neighbor; simpl. f_equal. f_equal.
  apply bool_decide_ext. set_solver.
Qed.

(** C8: [add_knowledge(cell, count)] marks [cell] played and safe, then
    ingests exactly the sentence whose cells are the in-bounds neighbors of
    [cell] not in [moves_made], not known safe and not known mines, with the
    count reduced by one for each in-bounds neighbor not in [moves_made]
    that is a known mine. *)
Theorem add_knowledge_sentence (f : nat) (ai : MinesweeperAI) (c : cell) (k : Z) :
  add_knowledge f ai c k =
  update_knowledge f (mark_safe (add_move ai c) c)
    (expected_cells ai c) (expected_count ai c k).
Proof.
  rewrite add_knowledge_unfold. cbv zeta. rewrite neighbor_fold. cbn [fst snd].
  fold (neighbor_cells c). unfold expected_cells, expected_count.
  f_equal.
  - rewrite (left_id_L ∅ union). f_equal. apply filter_ext_in.
    intros n Hn. pose proof (neighbor_cells_ne _ _ Hn) as Hne.
    rewrite fresh_neighbor_played by exact Hne.
    f_equal. f_equal. unfold mark_safe, add_move; cbn [safes].
    f_equal. apply bool_decide_ext. set_solver.
  - do 3 f_equal. apply filter_ext_in.
    intros n Hn. pose proof (neighbor_cells_ne _ _ Hn) as Hne.
    rewrite fresh_neighbor_played by exact Hne. reflexivity.
Qed.

(** ** [make_random_move] *)

Section RandomMove.

Variable ai : MinesweeperAI.
Variable rnd : nat -> cell.

(** [random.randint(a, b)] returns a value of [a..b]. *)
Definition randint_draws : Prop :=
  forall k, 0 <= fst (rnd k) <= height ai - 1 /\ 0 <= snd (rnd k) <= width ai - 1.

Definition board_exhausted : Prop :=
  forall x y, 0 <= x < height ai -> 0 <= y < width ai ->
  (x, y) ∈ moves_made ai \/ (x, y) ∈ mines ai.

Lemma random_move_loop_exhausted fuel k :
  randint_draws -> board_exhausted -> random_move_loop fuel ai rnd k = None.
Proof.
  intros Hr Hb. revert k. induction fuel as [|fuel IH]; intros k; [reflexivity|].
  simpl. destruct (Hr k) as [H1 H2].
  destruct (rnd k) as [x y] eqn:E. simpl in H1, H2.
  destruct (Hb x y ltac:(lia) ltac:(lia)) as [Hm|Hm].
  - rewrite bool_decide_eq_true_2 by exact Hm. apply IH.
  - rewrite (bool_decide_eq_true_2 (_ ∈ mines ai)) by exact Hm.
    rewrite orb_true_r. apply IH.
Qed.

Lemma random_move_loop_result fuel k m :
  randint_draws -> random_move_loop fuel ai rnd k = Some m ->
  0 <= fst m < height ai /\ 0 <= snd m < width ai /\
  (m ∉ moves_made ai) /\ (m ∉ mines ai).
Proof.
  intros Hr. revert k. induction fuel as [|fuel IH]; intros k H; [discriminate|].
  simpl in H. destruct (bool_decide _ || bool_decide _) eqn:E; [eapply IH; eauto|].
  injection H as <-. apply orb_false_iff in E as [E1 E2].
  apply bool_decide_eq_false in E1, E2. destruct (Hr k). repeat split; auto; lia.
Qed.

End RandomMove.

(** C9: with draws within the bounds of [random.randint], [make_random_move]
    returns for no amount of fuel when every cell of the board is played or
    a known mine, and when it returns, its cell is on the board, not played
    and not a known mine. *)
Theorem make_random_move_spec (fuel : nat) (ai : MinesweeperAI) (rnd : nat -> cell) :
  randint_draws ai rnd ->
  (board_exhausted ai -> make_random_move fuel ai rnd = None) /\
  (forall m, make_random_move fuel ai rnd = Some m ->
   0 <= fst m < height ai /\ 0 <= snd m < width ai /\
   (m ∉ moves_made ai) /\ (m ∉ mines ai)).
Proof.
  intros Hr. split.
  - intros Hb. apply random_move_loop_exhausted; assumption.
  - intros m H. eapply random_move_loop_result; eauto.
Qed.

Lemma make_random_move_spec_witness :
  make_random_move 3 (mkAI 1 2 {[(0, 0)]} ∅ {[(0, 0)]} []) (fun _ => (0, 1)) = Some (0, 1) /\
  (0 <= 0 < 1 /\ 0 <= 1 < 2 /\ ((0, 1) ∉ ({[(0, 0)]} : gset cell)) /\ ((0, 1) ∉ (∅ : gset cell))) /\
  (forall fuel, make_random_move fuel (mkAI 1 2 {[(0, 0)]} {[(0, 1)]} {[(0, 0)]} [])
                  (fun k => (0, Z.of_nat (k mod 2))) = None).
Proof.
  split; [reflexivity|]. split.
  - exact (proj2 (make_random_move_spec 3 (mkAI 1 2 {[(0, 0)]} ∅ {[(0, 0)]} [])
             (fun _ => (0, 1)) (fun _ => conj (conj (Z.le_refl 0) (Z.le_refl 0))
                                         (conj (Z.le_0_1) (Z.le_refl 1))))
             (0, 1) eq_refl).
  - intros fuel. apply make_random_move_spec.
    + intros k. simpl. pose proof (Nat.mod_upper_bound k 2 ltac:(lia)). lia.
    + intros x y Hx Hy. simpl in *.
      assert (x = 0) as -> by lia.
      assert (y = 0 \/ y = 1) as [->| ->] by lia; [left | right]; set_solver.
Defined.

(** ** States reachable at the boundary of the public operations

    [make_safe_move] and [make_random_move] return a cell and leave the
    state as it is, so the states reachable at a boundary are the initial
    state and the states in which a call of [add_knowledge] returns. *)
Inductive reachable (h w : Z) : MinesweeperAI -> Prop :=
  | reach_init : reachable h w (init_ai h w)
  | reach_add f ai c k r :
      reachable h w ai -> add_knowledge f ai c k = Some r -> reachable h w r.

(** Every sentence's cells avoid the known safe and mine cells. *)
Definition resolved (ai : MinesweeperAI) : Prop :=
  forall s, s ∈ knowledge ai -> Sentence.cells s ## safes ai ∪ mines ai.

Lemma resolved_mark_safe ai c : resolved ai -> resolved (mark_safe ai c).
Proof.
  unfold resolved, mark_safe; cbn [knowledge safes mines]. intros H s Hs.
  apply list_elem_of_In, in_map_iff in Hs as (s0 & <- & Hs0).
  specialize (H s0 (proj2 (list_elem_of_In _ _) Hs0)). unfold Sentence.mark_safe.
  clear Hs0. destruct (bool_decide _) eqn:E; cbn [Sentence.cells]; [set_solver|].
  apply bool_decide_eq_false in E. set_solver.
Qed.

Lemma resolved_mark_mine ai c : resolved ai -> resolved (mark_mine ai c).
Proof.
  unfold resolved, mark_mine; cbn [knowledge safes mines]. intros H s Hs.
  apply list_elem_of_In, in_map_iff in Hs as (s0 & <- & Hs0).
  specialize (H s0 (proj2 (list_elem_of_In _ _) Hs0)). unfold Sentence.mark_mine.
  clear Hs0. destruct (bool_decide _) eqn:E; cbn [Sentence.cells]; [set_solver|].
  apply bool_decide_eq_false in E. set_solver.
Qed.

Lemma init_cells_sub cs k : Sentence.cells (Sentence.init cs k) ⊆ cs.
Proof.
  unfold Sentence.init. destruct (_ =? _); [simpl; set_solver|].
  destruct (_ =? _); simpl; set_solver.
Qed.

Lemma update_knowledge_resolved f ai cs k r :
  resolved ai -> cs ## safes ai ∪ mines ai ->
  update_knowledge f ai cs k = Some r -> resolved r.
Proof.
  refine (update_knowledge_pres resolved
            (fun ai cs _ => cs ## safes ai ∪ mines ai)
            (fun _ => True) (fun _ => True) _ _ _ _ _ f ai cs k r).
  - intros ai' c HP _. apply resolved_mark_safe, HP.
  - intros ai' c HP _. apply resolved_mark_mine, HP.
  - intros ai' cs' k' HP HA. split; [|split; intros; exact I].
    unfold resolved, append_sentence; cbn [knowledge safes mines]. intros s Hs.
    apply elem_of_app in Hs as [Hs|Hs]; [apply HP, Hs|].
    apply list_elem_of_singleton in Hs as ->.
    pose proof (init_cells_sub cs' k'). set_solver.
  - intros. split; intros; exact I.
  - intros ai' s1 s2 HP _ H2 _. specialize (HP s2 H2). set_solver.
Qed.

Lemma neighbor_step_fresh ai c v k0 N0 :
  N0 ## safes ai ∪ mines ai ->
  (neighbor_step ai c (k0, N0) v).2 ## safes ai ∪ mines ai.
Proof.
  intros HN. unfold neighbor_step.
  destruct (_ && _ && _); [|exact HN].
  destruct (bool_decide (_ ∈ mines ai)) eqn:Em; [exact HN|].
  destruct (negb (bool_decide (_ ∈ safes ai))) eqn:Es; [|exact HN].
  apply bool_decide_eq_false in Em.
  apply negb_true_iff, bool_decide_eq_false in Es. cbn [snd]. set_solver.
Qed.

Lemma neighbor_fold_fresh ai c vs k0 N0 :
  N0 ## safes ai ∪ mines ai ->
  (foldl (neighbor_step ai c) (k0, N0) vs).2 ## safes ai ∪ mines ai.
Proof.
  revert k0 N0. induction vs as [|v vs IH]; intros k0 N0 HN; [exact HN|].
  cbn [foldl]. pose proof (neighbor_step_fresh ai c v k0 N0 HN) as H1.
  destruct (neighbor_step ai c (k0, N0) v) as [k1 N1]. apply IH, H1.
Qed.

Lemma add_knowledge_resolved f ai c k r :
  resolved ai -> add_knowledge f ai c k = Some r -> resolved r.
Proof.
  intros HP. rewrite add_knowledge_unfold. cbv zeta.
  apply update_knowledge_resolved.
  - apply resolved_mark_safe. exact HP.
  - apply neighbor_fold_fresh. set_solver.
Qed.

(** C7: in every state reachable at a public-operation boundary, no cell of
    [self.safes] or of [self.mines] is in the cells of a sentence of
    [self.knowledge]. *)
Theorem knowledge_avoids_known (h w : Z) (ai : MinesweeperAI) :
  reachable h w ai ->
  forall s x, s ∈ knowledge ai ->
  (x ∈ safes ai -> x ∉ Sentence.cells s) /\ (x ∈ mines ai -> x ∉ Sentence.cells s).
Proof.
  intros Hr. assert (HR : resolved ai).
  { induction Hr as [|f ai0 c k r _ IH Hadd].
    - intros s Hs. simpl in Hs. set_solver.
    - eapply add_knowledge_resolved; eauto. }
  intros s x Hs. specialize (HR s Hs). set_solver.
Qed.

Lemma knowledge_avoids_known_witness :
  reachable 2 3 ai_after_00 /\
  ((0, 0) ∈ safes ai_after_00 ->
   (0, 0) ∉ Sentence.cells (Sentence.mk {[(0, 1); (1, 0); (1, 1)]} ∅ ∅ 1)).
Proof.
  assert (Hr : reachable 2 3 ai_after_00).
  { apply (reach_add 2 3 4 (init_ai 2 3) (0, 0) 1); [constructor|reflexivity]. }
  split; [exact Hr|].
  apply (knowledge_avoids_known 2 3 ai_after_00 Hr).
  apply list_elem_of_singleton. reflexivity.
Defined.

(** ** The state in which [update_knowledge] returns *)

(** No sentence is settled by the direct rules: none has count 0 with
    cells left, none has as many cells as its count. *)
Definition direct_fixpoint (ai : MinesweeperAI) : Prop :=
  forall s, s ∈ knowledge ai ->
  (Sentence.count s = 0 -> Sentence.cells s = ∅) /\
  (Sentence.cells s <> ∅ -> Z.of_nat (size (Sentence.cells s)) <> Sentence.count s).

(** Besides, subset elimination applies to no ordered pair of sentences. *)
Definition deduction_fixpoint (ai : MinesweeperAI) : Prop :=
  direct_fixpoint ai /\
  forall s1 s2, s1 ∈ knowledge ai -> s2 ∈ knowledge ai ->
  Sentence.eqb s1 s2 = false -> 0 < Sentence.count s1 -> 0 < Sentence.count s2 ->
  ~ Sentence.cells s1 ⊆ Sentence.cells s2.

(** The pair of sentence objects at indices [i] and [j] is skipped by the
    deduction loop, or neither cell set is included in the other. *)
Definition pair_quiet (ai : MinesweeperAI) (i j : nat) : Prop :=
  forall s1 s2, knowledge ai !! i = Some s1 -> knowledge ai !! j = Some s2 ->
  Sentence.eqb s1 s2 = true \/ Sentence.count s1 = 0 \/ Sentence.count s2 = 0 \/
  ~ Sentence.cells s1 ⊆ Sentence.cells s2.

Lemma scan_covers l sf0 mn0 sf mn :
  foldl scan_step (sf0, mn0) l = (sf, mn) ->
  sf0 ⊆ sf /\ mn0 ⊆ mn /\
  forall s, s ∈ l ->
  (Sentence.count s = 0 -> Sentence.cells s ⊆ sf) /\
  (Sentence.count s <> 0 -> Z.of_nat (size (Sentence.cells s)) = Sentence.count s ->
   Sentence.cells s ⊆ mn).
Proof.
  revert sf0 mn0. induction l as [|s l IH]; intros sf0 mn0 H; cbn [foldl] in H.
  - injection H as <- <-. split; [done|split; [done|]]. intros s Hs. set_solver.
  - unfold scan_step at 2 in H.
    destruct (Sentence.count s =? 0) eqn:Ec.
    + apply Z.eqb_eq in Ec. destruct (IH _ _ H) as (H1 & H2 & H3).
      split; [set_solver|split; [exact H2|]].
      intros t Ht. apply elem_of_cons in Ht as [->|Ht]; [|apply H3, Ht].
      split; [set_solver|congruence].
    + apply Z.eqb_neq in Ec.
      destruct (Z.of_nat (size (Sentence.cells s)) =? Sentence.count s) eqn:Es.
      * apply Z.eqb_eq in Es. destruct (IH _ _ H) as (H1 & H2 & H3).
        split; [exact H1|split; [set_solver|]].
        intros t Ht. apply elem_of_cons in Ht as [->|Ht]; [|apply H3, Ht].
        split; [congruence|set_solver].
      * apply Z.eqb_neq in Es. destruct (IH _ _ H) as (H1 & H2 & H3).
        split; [exact H1|split; [exact H2|]].
        intros t Ht. apply elem_of_cons in Ht as [->|Ht]; [|apply H3, Ht].
        split; [congruence|congruence].
Qed.

Lemma propagate_direct f ai sf0 mn0 sf mn r :
  scan (knowledge ai) sf0 mn0 = (sf, mn) ->
  propagate f ai sf mn = Some r -> direct_fixpoint r.
Proof.
  revert ai sf0 mn0 sf mn. induction f as [|f IH]; intros ai sf0 mn0 sf mn Hs H;
    [discriminate|].
  cbn [propagate] in H.
  destruct ((size sf =? 0)%nat && (size mn =? 0)%nat) eqn:E.
  - injection H as <-. apply andb_true_iff in E as [E1 E2].
    apply Nat.eqb_eq, size_empty_inv in E1, E2.
    destruct (scan_covers _ _ _ _ _ Hs) as (_ & _ & Hc).
    intros s Hin. destruct (Hc s Hin) as [Hc0 Hc1]. split.
    + intros E0. specialize (Hc0 E0). set_solver.
    + intros Hne Hsz. destruct (decide (Sentence.count s = 0)) as [E0|E0].
      * apply Hne. specialize (Hc0 E0). set_solver.
      * apply Hne. specialize (Hc1 E0 Hsz). set_solver.
  - destruct (scan _ ∅ ∅) as [sf' mn'] eqn:Es.
    eapply IH; [exact Es|exact H].
Qed.

Lemma deduction_fixpoint_direct ai : deduction_fixpoint ai -> direct_fixpoint ai.
Proof. intros [H _]. exact H. Qed.

Lemma quiet_fixpoint ai :
  direct_fixpoint ai ->
  (forall i j, (i < length (knowledge ai))%nat -> (j < length (knowledge ai))%nat ->
   pair_quiet ai i j) ->
  deduction_fixpoint ai.
Proof.
  intros Hd Hq. split; [exact Hd|].
  intros s1 s2 H1 H2 Heq Hc1 Hc2 Hsub.
  apply list_elem_of_lookup_1 in H1 as [i Hi], H2 as [j Hj].
  destruct (Hq i j (lookup_lt_Some _ _ _ Hi) (lookup_lt_Some _ _ _ Hj) s1 s2 Hi Hj)
    as [E|[E|[E|E]]]; [congruence|lia|lia|contradiction].
Qed.

Section FixpointLoops.

Variable rec : MinesweeperAI -> gset cell -> Z -> option MinesweeperAI.
Hypothesis Hrec : forall ai c k r, rec ai c k = Some r -> deduction_fixpoint r.

Lemma step_pair_fix ai i j r :
  step_pair rec ai i j = Some r -> deduction_fixpoint r \/ (r = ai /\ pair_quiet ai i j).
Proof.
  unfold step_pair, pair_quiet.
  destruct (knowledge ai !! i) as [s1|] eqn:E1;
    [|intros H; injection H as <-; right; split; [done|]; intros; congruence].
  destruct (knowledge ai !! j) as [s2|] eqn:E2;
    [|intros H; injection H as <-; right; split; [done|]; intros; congruence].
  destruct (Sentence.eqb s1 s2 || (Sentence.count s1 =? 0)
            || (Sentence.count s2 =? 0)) eqn:Eskip.
  - intros H; injection H as <-. right. split; [done|].
    intros t1 t2 T1 T2. injection T1 as <-. injection T2 as <-.
    apply orb_true_iff in Eskip as [Eskip|Eskip]; [apply orb_true_iff in Eskip as [Eskip|Eskip]|].
    + left. exact Eskip.
    + right; left. apply Z.eqb_eq, Eskip.
    + right; right; left. apply Z.eqb_eq, Eskip.
  - destruct (bool_decide (Sentence.cells s1 ⊆ Sentence.cells s2)) eqn:Hsub.
    + intros H. left. eapply Hrec, H.
    + destruct (bool_decide (Sentence.cells s2 ⊂ Sentence.cells s1)).
      * intros H. left. eapply Hrec, H.
      * intros H; injection H as <-. right. split; [done|].
        intros t1 t2 T1 T2. injection T1 as <-. injection T2 as <-.
        right; right; right. apply bool_decide_eq_false in Hsub. exact Hsub.
Qed.

Lemma inner_loop_fix js ai i r :
  inner_loop rec ai i js = Some r ->
  deduction_fixpoint r \/ (r = ai /\ forall j, j ∈ js -> pair_quiet ai i j).
Proof.
  revert ai. induction js as [|j js IH]; intros ai H; cbn [inner_loop] in H.
  - injection H as <-. right. split; [done|]. intros j Hj. set_solver.
  - destruct (step_pair rec ai i j) as [ai'|] eqn:E; [|discriminate].
    destruct (IH ai' H) as [Hf|[-> Hq]]; [left; exact Hf|].
    destruct (step_pair_fix ai i j ai' E) as [Hf|[-> Hq0]]; [left; exact Hf|].
    right. split; [done|]. intros j' Hj'.
    apply elem_of_cons in Hj' as [->|Hj']; [exact Hq0|apply Hq, Hj'].
Qed.

Lemma outer_loop_fix is ai r :
  outer_loop rec ai is = Some r ->
  deduction_fixpoint r \/
  (r = ai /\ forall i j, i ∈ is -> (j < length (knowledge ai))%nat -> pair_quiet ai i j).
Proof.
  revert ai. induction is as [|i is IH]; intros ai H; cbn [outer_loop] in H.
  - injection H as <-. right. split; [done|]. intros i j Hi. set_solver.
  - destruct (inner_loop rec ai i _) as [ai'|] eqn:E; [|discriminate].
    destruct (IH ai' H) as [Hf|[-> Hq]]; [left; exact Hf|].
    destruct (inner_loop_fix _ ai i ai' E) as [Hf|[-> Hq0]]; [left; exact Hf|].
    right. split; [done|]. intros i' j Hi' Hj.
    apply elem_of_cons in Hi' as [->|Hi']; [|apply Hq; assumption].
    apply Hq0. apply list_elem_of_In, in_seq. lia.
Qed.

Lemma deduce_loop_fix f l0 ai r :
  direct_fixpoint ai ->
  ((length (knowledge ai) <= l0)%nat -> deduction_fixpoint ai) ->
  deduce_loop rec f l0 ai = Some r -> deduction_fixpoint r.
Proof.
  revert l0 ai. induction f as [|f IH]; intros l0 ai Hd Hl H; [discriminate|].
  cbn [deduce_loop] in H.
  destruct (l0 <? length (knowledge ai))%nat eqn:El.
  - destruct (outer_loop rec ai _) as [ai'|] eqn:Eo; [|discriminate].
    destruct (outer_loop_fix _ ai ai' Eo) as [Hf|[-> Hq]].
    + eapply IH; [apply deduction_fixpoint_direct, Hf|intros _; exact Hf|exact H].
    + assert (Hf : deduction_fixpoint ai).
      { apply quiet_fixpoint; [exact Hd|]. intros i j Hi Hj.
        apply Hq; [apply list_elem_of_In, in_seq; lia|exact Hj]. }
      eapply IH; [exact Hd|intros _; exact Hf|exact H].
  - injection H as <-. apply Hl. apply Nat.ltb_ge, El.
Qed.

End FixpointLoops.

(** C2: whenever [update_knowledge] returns, the knowledge is at a deduction
    fixpoint: no sentence has count 0 and cells left, no sentence has a
    non-empty cell set of the size of its count, and no ordered pair of
    sentences that differ for [Sentence.__eq__], both with a positive count,
    has the first cell set included in the second, so that no such pair
    yields a sentence at all. *)
Theorem update_knowledge_fixpoint (f : nat) (ai : MinesweeperAI) (cs : gset cell)
    (k : Z) (r : MinesweeperAI) :
  update_knowledge f ai cs k = Some r -> deduction_fixpoint r.
Proof.
  revert ai cs k r. induction f as [|f IH]; intros ai cs k r H; [discriminate|].
  cbn [update_knowledge] in H.
  destruct (scan _ _ _) as [sf mn] eqn:Es.
  destruct (propagate f _ sf mn) as [ai2|] eqn:Ep; [|discriminate].
  pose proof (propagate_direct _ _ _ _ _ _ _ Es Ep) as Hd.
  eapply deduce_loop_fix; [exact IH|exact Hd| |exact H].
  intros Hlen. apply quiet_fixpoint; [exact Hd|]. intros i j Hi. lia.
Qed.

Lemma update_knowledge_fixpoint_witness :
  exists r, update_knowledge 10 ai_after_00 {[(0, 1); (1, 2)]} 1 = Some r /\
            deduction_fixpoint r.
Proof.
  destruct (update_knowledge 10 ai_after_00 {[(0, 1); (1, 2)]} 1) as [r|] eqn:E.
  - exists r. split; [reflexivity|].
    exact (update_knowledge_fixpoint 10 ai_after_00 {[(0, 1); (1, 2)]} 1 r E).
  - vm_compute in E. discriminate E.
Defined.
(** ** Soundness of the knowledge when the hints are those of a board

    A board with mine set [M] gives, for a played cell that is not a mine,
    the hint [nearby_mines]. *)

(** [n] is on the board of [g] and a mine. *)
Definition mine_at (g : Minesweeper) (n : cell) : bool :=
  in_range n.1 0 (ms_height g) && in_range n.2 0 (ms_width g) && is_mine g n.

Lemma count_step (a b c : bool) (k : Z) :
  (if a && b then (if c then k + 1 else k) else k) = k + (if a && b && c then 1 else 0).
Proof. destruct a, b, c; simpl; lia. Qed.

Lemma filter_length_cons {A} (f : A -> bool) a l :
  Z.of_nat (length (List.filter f (a :: l))) =
  (if f a then 1 else 0) + Z.of_nat (length (List.filter f l)).
Proof. simpl. destruct (f a); simpl; lia. Qed.

Lemma zrange_around x : zrange (x - 1) (x + 2) = [x - 1; x; x + 1].
Proof.
  unfold zrange. replace (x + 2 - (x - 1)) with 3 by lia. simpl.
  f_equal; [lia|f_equal; [lia|f_equal; lia]].
Qed.

Lemma foldl_ext_fun {A B} (F G : A -> B -> A) (l : list B) (k : A) :
  (forall a b, F a b = G a b) -> foldl F k l = foldl G k l.
Proof.
  intros H. revert k. induction l as [|b l IH]; intros k; [reflexivity|].
  cbn [foldl]. rewrite H. apply IH.
Qed.

(** [Minesweeper.nearby_mines] counts the cells [cell + vec] for the eight
    vectors of [MinesweeperAI.neighbor_vectors] that are on the board and
    mines. *)
Lemma grid_count (A B : Z -> bool) (f : cell -> bool) (x y : Z) :
  foldl (fun cnt i =>
    foldl (fun cnt j =>
      if bool_decide ((i, j) = (x, y)) then cnt
      else if A i && B j then (if f (i, j) then cnt + 1 else cnt) else cnt)
      cnt (zrange (y - 1) (y + 2)))
    0 (zrange (x - 1) (x + 2)) =
  Z.of_nat (length (List.filter
    (fun v : Z * Z => A (x + v.1) && B (y + v.2) && f (x + v.1, y + v.2))
    neighbor_vectors)).
Proof.
  (* Rewrite the accumulator into a sum first, so that unfolding the nine
     iterations keeps the term linear. *)
  erewrite foldl_ext_fun; [|intros cnt i; apply foldl_ext_fun; intros cnt' j;
    rewrite count_step;
    instantiate (1 := fun cnt' j => cnt' + if bool_decide ((i, j) = (x, y)) then 0
                                           else if A i && B j && f (i, j) then 1 else 0);
    cbn beta; destruct (bool_decide _); lia].
  rewrite !zrange_around. cbn [foldl].
  repeat match goal with
  | |- context [bool_decide ((?a, ?b) = (x, y))] =>
      first [rewrite (bool_decide_eq_true_2 ((a, b) = (x, y))) by reflexivity
            |rewrite (bool_decide_eq_false_2 ((a, b) = (x, y)))
               by (intros E; injection E; lia)]
  end.
  unfold neighbor_vectors. rewrite !filter_length_cons. cbn [List.filter length fst snd].
  replace (x + -1) with (x - 1) by lia. replace (y + -1) with (y - 1) by lia.
  replace (x + 0) with x by lia. replace (y + 0) with y by lia.
  lia.
Qed.

Lemma nearby_mines_vectors g c :
  nearby_mines g c =
  Z.of_nat (length (List.filter (fun v : Z * Z => mine_at g (c.1 + v.1, c.2 + v.2))
                      neighbor_vectors)).
Proof.
  destruct c as [x y]. unfold nearby_mines, mine_at. cbn [fst snd].
  exact (grid_count (fun i => in_range i 0 (ms_height g)) (fun j => in_range j 0 (ms_width g))
           (is_mine g) x y).
Qed.

Section Soundness.

Variables (h w : Z) (M : gset cell).

(** The board: [height], [width] and the mine set [M]. *)
Definition game : Minesweeper := mkMinesweeper h w M.

(** The agent's state agrees with [M]: played and known safe cells are not
    mines, known mines are, and every sentence counts the mines of its cells
    exactly. *)
Definition sound (ai : MinesweeperAI) : Prop :=
  height ai = h /\ width ai = w /\
  moves_made ai ## M /\ safes ai ## M /\ mines ai ⊆ M /\
  forall s, s ∈ knowledge ai ->
  Z.of_nat (size (Sentence.cells s ∩ M)) = Sentence.count s.

Lemma sound_mark_safe ai c : sound ai -> c ∉ M -> sound (mark_safe ai c).
Proof.
  intros (Hh & Hw & Hmv & Hs & Hm & Hk) Hc. unfold mark_safe.
  split; [exact Hh|split; [exact Hw|split; [exact Hmv|split; [set_solver|split; [exact Hm|]]]]].
  cbn [knowledge]. intros s Hin.
  apply list_elem_of_In, in_map_iff in Hin as (s0 & <- & Hs0).
  specialize (Hk s0 (proj2 (list_elem_of_In _ _) Hs0)). clear Hs0.
  unfold Sentence.mark_safe. destruct (bool_decide _) eqn:E; [|exact Hk].
  cbn [Sentence.cells Sentence.count].
  replace ((Sentence.cells s0 ∖ {[c]}) ∩ M) with (Sentence.cells s0 ∩ M) by set_solver.
  exact Hk.
Qed.

Lemma sound_mark_mine ai c : sound ai -> c ∈ M -> sound (mark_mine ai c).
Proof.
  intros (Hh & Hw & Hmv & Hs & Hm & Hk) Hc. unfold mark_mine.
  split; [exact Hh|split; [exact Hw|split; [exact Hmv|split; [exact Hs|split; [set_solver|]]]]].
  cbn [knowledge]. intros s Hin.
  apply list_elem_of_In, in_map_iff in Hin as (s0 & <- & Hs0).
  specialize (Hk s0 (proj2 (list_elem_of_In _ _) Hs0)). clear Hs0.
  unfold Sentence.mark_mine. destruct (bool_decide _) eqn:E; [|exact Hk].
  apply bool_decide_eq_true in E. cbn [Sentence.cells Sentence.count].
  assert (Heq : Sentence.cells s0 ∩ M = {[c]} ∪ ((Sentence.cells s0 ∖ {[c]}) ∩ M)).
  { apply set_eq. intros x. destruct (decide (x = c)); set_solver. }
  rewrite Heq, size_union, size_singleton in Hk by set_solver. lia.
Qed.

Lemma size_inter_full (X : gset cell) :
  size (X ∩ M) = size X -> X ⊆ M.
Proof.
  intros H. assert (E : X ∩ M = X).
  { apply set_subseteq_size_eq; [set_solver|lia]. }
  set_solver.
Qed.

Lemma size_inter_zero (X : gset cell) :
  size (X ∩ M) = 0%nat -> X ## M.
Proof. intros H. apply size_empty_inv in H. set_solver. Qed.

Lemma size_inter_diff (X Y : gset cell) :
  X ⊆ Y -> size ((Y ∖ X) ∩ M) = (size (Y ∩ M) - size (X ∩ M))%nat.
Proof.
  intros Hs. assert (Heq : Y ∩ M = (X ∩ M) ∪ ((Y ∖ X) ∩ M)).
  { apply set_eq. intros x. destruct (decide (x ∈ X)); set_solver. }
  rewrite Heq, (size_union (X ∩ M) ((Y ∖ X) ∩ M)) by set_solver. lia.
Qed.

Lemma update_knowledge_sound f ai cs k r :
  sound ai -> Z.of_nat (size (cs ∩ M)) = k ->
  update_knowledge f ai cs k = Some r -> sound r.
Proof.
  refine (update_knowledge_pres sound
            (fun _ cs k => Z.of_nat (size (cs ∩ M)) = k)
            (fun x => x ∉ M) (fun x => x ∈ M) _ _ _ _ _ f ai cs k r).
  - intros. apply sound_mark_safe; assumption.
  - intros. apply sound_mark_mine; assumption.
  - intros ai' cs' k' HP HA.
    destruct HP as (Hh & Hw & Hmv & Hs & Hm & Hk).
    unfold Sentence.init.
    destruct (Z.of_nat (size cs') =? k') eqn:E1; [|destruct (k' =? 0) eqn:E2].
    + apply Z.eqb_eq in E1. assert (Hsub : cs' ⊆ M) by (apply size_inter_full; lia).
      split; [|split; cbn [Sentence.safes Sentence.mines]; [set_solver|set_solver]].
      unfold append_sentence. split; [exact Hh|split; [exact Hw|split; [exact Hmv|split; [exact Hs|split; [exact Hm|]]]]].
      cbn [knowledge]. intros s Hin. apply elem_of_app in Hin as [Hin|Hin]; [apply Hk, Hin|].
      apply list_elem_of_singleton in Hin as ->. cbn [Sentence.cells Sentence.count].
      rewrite intersection_empty_l_L, size_empty. reflexivity.
    + apply Z.eqb_eq in E2. assert (Hd : cs' ## M) by (apply size_inter_zero; lia).
      split; [|split; cbn [Sentence.safes Sentence.mines]; [set_solver|set_solver]].
      unfold append_sentence. split; [exact Hh|split; [exact Hw|split; [exact Hmv|split; [exact Hs|split; [exact Hm|]]]]].
      cbn [knowledge]. intros s Hin. apply elem_of_app in Hin as [Hin|Hin]; [apply Hk, Hin|].
      apply list_elem_of_singleton in Hin as ->. cbn [Sentence.cells Sentence.count].
      rewrite intersection_empty_l_L, size_empty. lia.
    + split; [|split; cbn [Sentence.safes Sentence.mines]; [set_solver|set_solver]].
      unfold append_sentence. split; [exact Hh|split; [exact Hw|split; [exact Hmv|split; [exact Hs|split; [exact Hm|]]]]].
      cbn [knowledge]. intros s Hin. apply elem_of_app in Hin as [Hin|Hin]; [apply Hk, Hin|].
      apply list_elem_of_singleton in Hin as ->. cbn [Sentence.cells Sentence.count].
      exact HA.
  - intros ai' s HP Hin. destruct HP as (_ & _ & _ & _ & _ & Hk).
    specialize (Hk s Hin). split.
    + intros E0 x Hx. rewrite E0 in Hk. pose proof (size_inter_zero (Sentence.cells s)).
      assert (Sentence.cells s ## M) by (apply size_inter_zero; lia). set_solver.
    + intros _ Hsz x Hx. assert (Sentence.cells s ⊆ M) by (apply size_inter_full; lia).
      set_solver.
  - intros ai' s1 s2 HP H1 H2 Hsub. destruct HP as (_ & _ & _ & _ & _ & Hk).
    pose proof (Hk s1 H1). pose proof (Hk s2 H2).
    pose proof (subseteq_size (Sentence.cells s1 ∩ M) (Sentence.cells s2 ∩ M) ltac:(set_solver)).
    rewrite size_inter_diff by exact Hsub. lia.
Qed.

Lemma neighbor_step_count ai c v k0 N0 k1 N1 :
  height ai = h -> width ai = w -> moves_made ai ## M -> safes ai ## M -> mines ai ⊆ M ->
  (c.1 + v.1, c.2 + v.2) ∉ N0 ->
  neighbor_step ai c (k0, N0) v = (k1, N1) ->
  (N1 ⊆ {[(c.1 + v.1, c.2 + v.2)]} ∪ N0) /\ (N0 ⊆ N1) /\
  (Z.of_nat (size (N1 ∩ M)) - k1 =
   Z.of_nat (size (N0 ∩ M)) - k0 + (if mine_at game (c.1 + v.1, c.2 + v.2) then 1 else 0)).
Proof.
  intros Hh Hw Hmv Hs Hm Hn. unfold neighbor_step, mine_at, is_mine. cbn [fst snd game ms_height ms_width ms_mines].
  rewrite Hh, Hw.
  set (n := (c.1 + v.1, c.2 + v.2)) in *.
  destruct (in_range (c.1 + v.1) 0 h && in_range (c.2 + v.2) 0 w) eqn:Eb; cbn [andb].
  - destruct (bool_decide (n ∈ moves_made ai)) eqn:Emv; cbn [negb].
    + intros E; injection E as <- <-. apply bool_decide_eq_true in Emv.
      rewrite (bool_decide_eq_false_2 (n ∈ M)) by set_solver. split; [set_solver|split; [set_solver|lia]].
    + destruct (bool_decide (n ∈ mines ai)) eqn:Emn.
      * intros E; injection E as <- <-. apply bool_decide_eq_true in Emn.
        rewrite (bool_decide_eq_true_2 (n ∈ M)) by set_solver. split; [set_solver|split; [set_solver|lia]].
      * destruct (bool_decide (n ∈ safes ai)) eqn:Esf; cbn [negb].
        -- intros E; injection E as <- <-. apply bool_decide_eq_true in Esf.
           rewrite (bool_decide_eq_false_2 (n ∈ M)) by set_solver. split; [set_solver|split; [set_solver|lia]].
        -- intros E; injection E as <- <-. split; [set_solver|split; [set_solver|]].
           destruct (bool_decide (n ∈ M)) eqn:EM.
           ++ apply bool_decide_eq_true in EM.
              assert (Heq : ({[n]} ∪ N0) ∩ M = {[n]} ∪ (N0 ∩ M)).
              { apply set_eq. intros x. destruct (decide (x = n)); set_solver. }
              rewrite Heq, (size_union {[n]} (N0 ∩ M)), size_singleton by set_solver. lia.
           ++ apply bool_decide_eq_false in EM.
              replace (({[n]} ∪ N0) ∩ M) with (N0 ∩ M) by set_solver. lia.
  - intros E; injection E as <- <-.
    destruct (bool_decide (n ∈ M)); [|split; [set_solver|split; [set_solver|lia]]].
    split; [set_solver|split; [set_solver|]].
    lia.
Qed.
Lemma neighbor_fold_count ai c vs k0 N0 :
  height ai = h -> width ai = w -> moves_made ai ## M -> safes ai ## M -> mines ai ⊆ M ->
  NoDup (map (fun v : Z * Z => (c.1 + v.1, c.2 + v.2)) vs) ->
  (forall v, In v vs -> (c.1 + v.1, c.2 + v.2) ∉ N0) ->
  Z.of_nat (size ((foldl (neighbor_step ai c) (k0, N0) vs).2 ∩ M))
    - (foldl (neighbor_step ai c) (k0, N0) vs).1 =
  Z.of_nat (size (N0 ∩ M)) - k0 +
  Z.of_nat (length (List.filter (fun v : Z * Z => mine_at game (c.1 + v.1, c.2 + v.2)) vs)).
Proof.
  intros Hh Hw Hmv Hs Hm. revert k0 N0.
  induction vs as [|v vs IH]; intros k0 N0 Hnd Hfresh; cbn [foldl fst snd].
  - cbn [List.filter length]. lia.
  - cbn [map] in Hnd. apply NoDup_cons in Hnd as [Hnot Hnd].
    destruct (neighbor_step ai c (k0, N0) v) as [k1 N1] eqn:Estep.
    destruct (neighbor_step_count ai c v k0 N0 k1 N1 Hh Hw Hmv Hs Hm
                (Hfresh v (or_introl eq_refl)) Estep) as (Hsub & _ & Hcnt).
    rewrite IH; [|exact Hnd|].
    + rewrite filter_length_cons. lia.
    + intros v' Hv' Hin. apply Hsub in Hin. apply elem_of_union in Hin as [Hin|Hin].
      * apply elem_of_singleton in Hin. apply Hnot. rewrite <- Hin.
        apply list_elem_of_In, in_map_iff. exists v'. split; [reflexivity|exact Hv'].
      * exact (Hfresh v' (or_intror Hv') Hin).
Qed.

Lemma neighbors_nodup (c : cell) :
  NoDup (map (fun v : Z * Z => (c.1 + v.1, c.2 + v.2)) neighbor_vectors).
Proof.
  destruct c as [x y]. unfold neighbor_vectors. cbn [map fst snd].
  repeat (apply NoDup_cons; split;
    [rewrite list_elem_of_In; cbn [In]; intros Hin;
     repeat (destruct Hin as [Hin|Hin]; [injection Hin; lia|]); exact Hin|]).
  apply NoDup_nil_2.
Qed.

Lemma add_knowledge_sound f ai c r :
  sound ai -> c ∉ M -> add_knowledge f ai c (nearby_mines game c) = Some r -> sound r.
Proof.
  intros HP Hc. rewrite add_knowledge_unfold. cbv zeta.
  assert (HP1 : sound (mark_safe (add_move ai c) c)).
  { apply sound_mark_safe; [|exact Hc].
    destruct HP as (Hh & Hw & Hmv & Hs & Hm & Hk).
    unfold add_move, sound. cbn [height width moves_made safes mines knowledge].
    split; [exact Hh|split; [exact Hw|split; [set_solver|split; [exact Hs|split; [exact Hm|exact Hk]]]]]. }
  apply update_knowledge_sound; [exact HP1|].
  destruct HP1 as (Hh & Hw & Hmv & Hs & Hm & _).
  pose proof (neighbor_fold_count _ c neighbor_vectors (nearby_mines game c) ∅
                Hh Hw Hmv Hs Hm (neighbors_nodup c) (fun _ _ H => not_elem_of_empty _ H)) as Hcnt.
  rewrite intersection_empty_l_L, size_empty in Hcnt.
  pose proof (nearby_mines_vectors game c) as HK.
  set (K := nearby_mines game c) in *. lia.
Qed.

End Soundness.

(** The states reachable at a public-operation boundary when every played
    cell is not a mine and its hint is the board's [nearby_mines]. *)
Inductive truthful_reachable (h w : Z) (M : gset cell) : MinesweeperAI -> Prop :=
  | truthful_init : truthful_reachable h w M (init_ai h w)
  | truthful_add f ai c r :
      truthful_reachable h w M ai -> c ∉ M ->
      add_knowledge f ai c (nearby_mines (game h w M) c) = Some r ->
      truthful_reachable h w M r.

Lemma truthful_reachable_sound h w M ai :
  truthful_reachable h w M ai -> sound h w M ai.
Proof.
  induction 1 as [|f ai c r _ IH Hc Hadd].
  - unfold sound, init_ai. cbn [height width moves_made safes mines knowledge].
    split; [reflexivity|split; [reflexivity|]].
    split; [set_solver|split; [set_solver|split; [set_solver|]]].
    intros s Hs. apply elem_of_nil in Hs. contradiction.
  - eapply add_knowledge_sound; eauto.
Qed.

(** ** Observation points inside [add_knowledge]

    The states the program passes through inside one public call, at the
    end of every statement that changes the agent: the state after
    [self.moves_made.add(cell)]; in [MinesweeperAI.mark_safe] and
    [MinesweeperAI.mark_mine], the state after the set insertion and after
    each [sentence.mark_safe(cell)] or [sentence.mark_mine(cell)] call; and
    the state after [self.knowledge.append(sentence)].  The traced
    functions below are the functions of the model with these states
    collected, in order, into a log. *)

(** The state after [self.safes.add(cell)] and the first [i] iterations of
    [for sentence in self.knowledge: sentence.mark_safe(cell)]. *)
Definition mark_safe_at (ai : MinesweeperAI) (c : cell) (i : nat) : MinesweeperAI :=
  mkAI (height ai) (width ai) (moves_made ai) (mines ai) ({[c]} ∪ safes ai)
    (map (Sentence.mark_safe c) (take i (knowledge ai)) ++ drop i (knowledge ai)).

Definition mark_mine_at (ai : MinesweeperAI) (c : cell) (i : nat) : MinesweeperAI :=
  mkAI (height ai) (width ai) (moves_made ai) ({[c]} ∪ mines ai) (safes ai)
    (map (Sentence.mark_mine c) (take i (knowledge ai)) ++ drop i (knowledge ai)).

Definition mark_safe_trace (ai : MinesweeperAI) (c : cell) : list MinesweeperAI :=
  map (mark_safe_at ai c) (seq 0 (S (length (knowledge ai)))).

Definition mark_mine_trace (ai : MinesweeperAI) (c : cell) : list MinesweeperAI :=
  map (mark_mine_at ai c) (seq 0 (S (length (knowledge ai)))).

Fixpoint mark_safes_traced (ai : MinesweeperAI) (l : list cell)
    : MinesweeperAI * list MinesweeperAI :=
  match l with
  | [] => (ai, [])
  | c :: l' =>
      let '(r, log) := mark_safes_traced (mark_safe ai c) l' in
      (r, mark_safe_trace ai c ++ log)
  end.

Fixpoint mark_mines_traced (ai : MinesweeperAI) (l : list cell)
    : MinesweeperAI * list MinesweeperAI :=
  match l with
  | [] => (ai, [])
  | c :: l' =>
      let '(r, log) := mark_mines_traced (mark_mine ai c) l' in
      (r, mark_mine_trace ai c ++ log)
  end.

Fixpoint propagate_traced (fuel : nat) (ai : MinesweeperAI) (sf mn : gset cell)
    : option (MinesweeperAI * list MinesweeperAI) :=
  match fuel with
  | O => None
  | S fuel' =>
      if (size sf =? 0)%nat && (size mn =? 0)%nat then Some (ai, [])
      else
        let '(ai1, l1) := mark_safes_traced ai (elements sf) in
        let '(ai', l2) := mark_mines_traced ai1 (elements mn) in
        let '(sf', mn') := scan (knowledge ai') ∅ ∅ in
        match propagate_traced fuel' ai' sf' mn' with
        | None => None
        | Some (r, l3) => Some (r, l1 ++ l2 ++ l3)
        end
  end.

Section DeductionTraced.

Variable rec : MinesweeperAI -> gset cell -> Z -> option (MinesweeperAI * list MinesweeperAI).

Definition step_pair_traced (ai : MinesweeperAI) (i j : nat)
    : option (MinesweeperAI * list MinesweeperAI) :=
  match knowledge ai !! i, knowledge ai !! j with
  | Some s1, Some s2 =>
      if Sentence.eqb s1 s2 || (Sentence.count s1 =? 0)
         || (Sentence.count s2 =? 0) then Some (ai, [])
      else if bool_decide (Sentence.cells s1 ⊆ Sentence.cells s2) then
        rec ai (Sentence.cells s2 ∖ Sentence.cells s1)
               (Sentence.count s2 - Sentence.count s1)
      else if bool_decide (Sentence.cells s2 ⊂ Sentence.cells s1) then
        rec ai (Sentence.cells s1 ∖ Sentence.cells s2)
               (Sentence.count s1 - Sentence.count s2)
      else Some (ai, [])
  | _, _ => Some (ai, [])
  end.

Fixpoint inner_loop_traced (ai : MinesweeperAI) (i : nat) (js : list nat)
    : option (MinesweeperAI * list MinesweeperAI) :=
  match js with
  | [] => Some (ai, [])
  | j :: js' =>
      match step_pair_traced ai i j with
      | None => None
      | Some (ai', l1) =>
          match inner_loop_traced ai' i js' with
          | None => None
          | Some (r, l2) => Some (r, l1 ++ l2)
          end
      end
  end.

Fixpoint outer_loop_traced (ai : MinesweeperAI) (is : list nat)
    : option (MinesweeperAI * list MinesweeperAI) :=
  match is with
  | [] => Some (ai, [])
  | i :: is' =>
      match inner_loop_traced ai i (seq 0 (length (knowledge ai))) with
      | None => None
      | Some (ai', l1) =>
          match outer_loop_traced ai' is' with
          | None => None
          | Some (r, l2) => Some (r, l1 ++ l2)
          end
      end
  end.

Fixpoint deduce_loop_traced (fuel : nat) (l0 : nat) (ai : MinesweeperAI)
    : option (MinesweeperAI * list MinesweeperAI) :=
  match fuel with
  | O => None
  | S fuel' =>
      if (l0 <? length (knowledge ai))%nat then
        let l0' := length (knowledge ai) in
        match outer_loop_traced ai (seq 0 l0') with
        | None => None
        | Some (ai', l1) =>
            match deduce_loop_traced fuel' l0' ai' with
            | None => None
            | Some (r, l2) => Some (r, l1 ++ l2)
            end
        end
      else Some (ai, [])
  end.

End DeductionTraced.

Fixpoint update_knowledge_traced (fuel : nat) (ai : MinesweeperAI) (cells0 : gset cell)
    (count0 : Z) : option (MinesweeperAI * list MinesweeperAI) :=
  match fuel with
  | O => None
  | S fuel' =>
      let sentence := Sentence.init cells0 count0 in
      let ai1 :=
        if existsb (Sentence.eqb sentence) (knowledge ai) then ai
        else append_sentence ai sentence in
      let '(sf, mn) :=
        scan (knowledge ai1) (Sentence.safes sentence) (Sentence.mines sentence) in
      match propagate_traced fuel' ai1 sf mn with
      | None => None
      | Some (ai2, l2) =>
          match deduce_loop_traced (update_knowledge_traced fuel') fuel' 0 ai2 with
          | None => None
          | Some (r, l3) => Some (r, ai1 :: l2 ++ l3)
          end
      end
  end.

Definition add_knowledge_traced (fuel : nat) (ai : MinesweeperAI) (c : cell) (cnt : Z)
    : option (MinesweeperAI * list MinesweeperAI) :=
  let ai0 := add_move ai c in
  let ai1 := mark_safe ai0 c in
  let '(cnt', nbrs) := foldl (neighbor_step ai1 c) (cnt, ∅) neighbor_vectors in
  match update_knowledge_traced fuel ai1 nbrs cnt' with
  | None => None
  | Some (r, l) => Some (r, ai0 :: mark_safe_trace ai0 c ++ l)
  end.

(** The traced functions compute the same states as the model. *)

Lemma mark_safes_traced_fst ai l : fst (mark_safes_traced ai l) = foldl mark_safe ai l.
Proof.
  revert ai. induction l as [|c l IH]; intros ai; [reflexivity|].
  cbn [mark_safes_traced foldl]. rewrite <- IH.
  destruct (mark_safes_traced (mark_safe ai c) l). reflexivity.
Qed.

Lemma mark_mines_traced_fst ai l : fst (mark_mines_traced ai l) = foldl mark_mine ai l.
Proof.
  revert ai. induction l as [|c l IH]; intros ai; [reflexivity|].
  cbn [mark_mines_traced foldl]. rewrite <- IH.
  destruct (mark_mines_traced (mark_mine ai c) l). reflexivity.
Qed.

Lemma propagate_traced_agrees f ai sf mn :
  fst <$> propagate_traced f ai sf mn = propagate f ai sf mn.
Proof.
  revert ai sf mn. induction f as [|f IH]; intros ai sf mn; [reflexivity|].
  cbn [propagate_traced propagate]. destruct (_ && _); [reflexivity|].
  pose proof (mark_safes_traced_fst ai (elements sf)) as F1.
  destruct (mark_safes_traced ai (elements sf)) as [a1 l1]. cbn [fst] in F1.
  pose proof (mark_mines_traced_fst a1 (elements mn)) as F2.
  destruct (mark_mines_traced a1 (elements mn)) as [a2 l2]. cbn [fst] in F2.
  unfold mark_safes, mark_mines. rewrite <- F1, <- F2.
  destruct (scan (knowledge a2) ∅ ∅) as [sf' mn'].
  rewrite <- IH. destruct (propagate_traced f a2 sf' mn') as [[r l3]|]; reflexivity.
Qed.

Section DeductionAgrees.

Variable rec : MinesweeperAI -> gset cell -> Z -> option MinesweeperAI.
Variable rec_t : MinesweeperAI -> gset cell -> Z -> option (MinesweeperAI * list MinesweeperAI).
Hypothesis Hrec : forall ai cs k, fst <$> rec_t ai cs k = rec ai cs k.

Lemma step_pair_traced_agrees ai i j :
  fst <$> step_pair_traced rec_t ai i j = step_pair rec ai i j.
Proof.
  unfold step_pair_traced, step_pair.
  destruct (knowledge ai !! i), (knowledge ai !! j); try reflexivity.
  destruct (_ || _ || _); [reflexivity|].
  destruct (bool_decide _); [apply Hrec|].
  destruct (bool_decide _); [apply Hrec|reflexivity].
Qed.

Lemma inner_loop_traced_agrees ai i js :
  fst <$> inner_loop_traced rec_t ai i js = inner_loop rec ai i js.
Proof.
  revert ai. induction js as [|j js IH]; intros ai; [reflexivity|].
  cbn [inner_loop_traced inner_loop]. rewrite <- step_pair_traced_agrees.
  destruct (step_pair_traced rec_t ai i j) as [[a l1]|]; [|reflexivity].
  cbn [fmap option_fmap option_map fst]. rewrite <- IH.
  destruct (inner_loop_traced rec_t a i js) as [[r l2]|]; reflexivity.
Qed.

Lemma outer_loop_traced_agrees ai is :
  fst <$> outer_loop_traced rec_t ai is = outer_loop rec ai is.
Proof.
  revert ai. induction is as [|i is IH]; intros ai; [reflexivity|].
  cbn [outer_loop_traced outer_loop]. rewrite <- inner_loop_traced_agrees.
  destruct (inner_loop_traced rec_t ai i _) as [[a l1]|]; [|reflexivity].
  cbn [fmap option_fmap option_map fst]. rewrite <- IH.
  destruct (outer_loop_traced rec_t a is) as [[r l2]|]; reflexivity.
Qed.

Lemma deduce_loop_traced_agrees f l0 ai :
  fst <$> deduce_loop_traced rec_t f l0 ai = deduce_loop rec f l0 ai.
Proof.
  revert l0 ai. induction f as [|f IH]; intros l0 ai; [reflexivity|].
  cbn [deduce_loop_traced deduce_loop]. destruct (_ <? _)%nat; [|reflexivity].
  rewrite <- outer_loop_traced_agrees.
  destruct (outer_loop_traced rec_t ai _) as [[a l1]|]; [|reflexivity].
  cbn [fmap option_fmap option_map fst]. rewrite <- IH.
  destruct (deduce_loop_traced rec_t f _ a) as [[r l2]|]; reflexivity.
Qed.

End DeductionAgrees.

Lemma update_knowledge_traced_agrees f ai cs k :
  fst <$> update_knowledge_traced f ai cs k = update_knowledge f ai cs k.
Proof.
  revert ai cs k. induction f as [|f IH]; intros ai cs k; [reflexivity|].
  cbn [update_knowledge_traced update_knowledge].
  destruct (scan _ _ _) as [sf mn].
  rewrite <- propagate_traced_agrees.
  destruct (propagate_traced f _ sf mn) as [[a2 l2]|]; [|reflexivity].
  cbn [fmap option_fmap option_map fst].
  rewrite <- (deduce_loop_traced_agrees _ _ IH).
  destruct (deduce_loop_traced _ f 0 a2) as [[r l3]|]; reflexivity.
Qed.

Lemma add_knowledge_traced_agrees f ai c k :
  fst <$> add_knowledge_traced f ai c k = add_knowledge f ai c k.
Proof.
  unfold add_knowledge_traced, add_knowledge. destruct (foldl _ _ _) as [k' N].
  rewrite <- update_knowledge_traced_agrees.
  destruct (update_knowledge_traced f _ N k') as [[r l]|]; reflexivity.
Qed.

Section TracedSoundness.

Variables (h w : Z) (M : gset cell).












Section LoopsTraced.

Variable rec_t : MinesweeperAI -> gset cell -> Z -> option (MinesweeperAI * list MinesweeperAI).
Hypothesis Hrec : forall ai cs k r log,
  sound h w M ai -> Z.of_nat (size (cs ∩ M)) = k ->
  rec_t ai cs k = Some (r, log) -> sound h w M r /\ Forall (sound h w M) log.





End LoopsTraced.




End TracedSoundness.

(** On a 1 x 2 board: (0, 0) played with hint 1, then (0, 1) played with
    hint 0. *)
Definition ai_1x2_played : MinesweeperAI :=
  mkAI 1 2 {[(0, 1); (0, 0)]} {[(0, 1)]} {[(0, 1); (0, 0)]} [Sentence.mk ∅ {[(0, 1)]} ∅ 0].








(** C6, counterexample: on a 1 x 2 board, [add_knowledge((0, 0), 1)] makes
    (0, 1) a known mine; [add_knowledge((0, 1), 0)] then marks it safe too. *)
Lemma safe_and_mine_reachable :
  add_knowledge 5 (init_ai 1 2) (0, 0) 1 = Some ai_1x2_mine /\
  add_knowledge 5 ai_1x2_mine (0, 1) 0 = Some ai_1x2_played /\
  (0, 1) ∈ safes ai_1x2_played /\ (0, 1) ∈ mines ai_1x2_played.
Proof.
  split; [reflexivity|]. split; [reflexivity|].
  unfold ai_1x2_played. cbn [safes mines]. split; set_solver.
Qed.

(** C6, amended: when every played cell is not a mine of a board with mine
    set [M] and its hint is the board's [nearby_mines], the known safe cells
    and the known mines are disjoint in every state reachable at a
    public-operation boundary. *)
Theorem truthful_safes_mines_disjoint (h w : Z) (M : gset cell) (ai : MinesweeperAI) :
  truthful_reachable h w M ai -> safes ai ∩ mines ai = ∅.
Proof.
  intros Hr.
  destruct (truthful_reachable_sound h w M ai Hr) as (_ & _ & _ & Hs & Hm & _).
  set_solver.
Qed.

Lemma truthful_safes_mines_disjoint_witness :
  truthful_reachable 1 2 {[(0, 1)]} ai_1x2_mine /\
  (0, 1) ∈ mines ai_1x2_mine /\ (0, 0) ∈ safes ai_1x2_mine /\
  safes ai_1x2_mine ∩ mines ai_1x2_mine = ∅.
Proof.
  assert (Hr : truthful_reachable 1 2 {[(0, 1)]} ai_1x2_mine).
  { apply (truthful_add 1 2 {[(0, 1)]} 5 (init_ai 1 2) (0, 0));
      [constructor|set_solver|reflexivity]. }
  split; [exact Hr|]. unfold ai_1x2_mine at 1 2; cbn [mines safes].
  split; [set_solver|]. split; [set_solver|].
  exact (truthful_safes_mines_disjoint 1 2 {[(0, 1)]} ai_1x2_mine Hr).
Defined.

(** * Further properties of the code *)

(** ** [Minesweeper.nearby_mines] *)

Lemma filter_length_le_nat {A} (p : A -> bool) (l : list A) :
  (length (List.filter p l) <= length l)%nat.
Proof.
  induction l as [|a l IH]; cbn [List.filter length]; [lia|].
  destruct (p a); cbn [length]; lia.
Qed.

(** [nearby_mines] returns a count between 0 and 8. *)
Theorem nearby_mines_range (g : Minesweeper) (c : cell) :
  0 <= nearby_mines g c <= 8.
Proof.
  rewrite nearby_mines_vectors.
  pose proof (filter_length_le_nat
    (fun v : Z * Z => mine_at g (c.1 + v.1, c.2 + v.2)) neighbor_vectors) as H.
  cbn [length neighbor_vectors] in H. lia.
Qed.

(** [nearby_mines] skips the cell itself: whether the cell is a mine does
    not change its count. *)
Theorem nearby_mines_ignores_cell (h w : Z) (M : gset cell) (c : cell) :
  nearby_mines (mkMinesweeper h w ({[c]} ∪ M)) c =
  nearby_mines (mkMinesweeper h w (M ∖ {[c]})) c.
Proof.
  rewrite !nearby_mines_vectors. do 2 f_equal. apply filter_ext_in.
  intros v Hv. unfold mine_at, is_mine. cbn [ms_height ms_width ms_mines].
  assert (Hne : (c.1 + v.1, c.2 + v.2) <> c).
  { apply neighbor_cells_ne. unfold neighbor_cells. apply in_map_iff.
    exists v. split; [reflexivity|exact Hv]. }
  f_equal. apply bool_decide_ext. set_solver.
Qed.

(** ** Marking cells: the iteration order over a Python set is irrelevant *)

Ltac sentence_mark_cases :=
  repeat (cbn [Sentence.cells Sentence.mines Sentence.safes Sentence.count] in *;
          case_bool_decide);
  try reflexivity; try (exfalso; set_solver);
  f_equal; solve [set_solver | lia].

Lemma sentence_mark_safe_comm a b s :
  Sentence.mark_safe b (Sentence.mark_safe a s) = Sentence.mark_safe a (Sentence.mark_safe b s).
Proof.
  destruct s as [cs mn sf k]. unfold Sentence.mark_safe.
  destruct (decide (a = b)) as [->|Hab]; [reflexivity|].
  sentence_mark_cases.
Qed.

Lemma sentence_mark_mine_comm a b s :
  Sentence.mark_mine b (Sentence.mark_mine a s) = Sentence.mark_mine a (Sentence.mark_mine b s).
Proof.
  destruct s as [cs mn sf k]. unfold Sentence.mark_mine.
  destruct (decide (a = b)) as [->|Hab]; [reflexivity|].
  sentence_mark_cases.
Qed.

Lemma mark_safe_comm ai a b : mark_safe (mark_safe ai a) b = mark_safe (mark_safe ai b) a.
Proof.
  unfold mark_safe. cbn [height width moves_made mines safes knowledge].
  f_equal; [set_solver|]. rewrite !map_map. apply map_ext. intros s.
  apply sentence_mark_safe_comm.
Qed.

Lemma mark_mine_comm ai a b : mark_mine (mark_mine ai a) b = mark_mine (mark_mine ai b) a.
Proof.
  unfold mark_mine. cbn [height width moves_made mines safes knowledge].
  f_equal; [set_solver|]. rewrite !map_map. apply map_ext. intros s.
  apply sentence_mark_mine_comm.
Qed.

Lemma foldl_perm {A B} (f : A -> B -> A) (l1 l2 : list B) :
  (forall a x y, f (f a x) y = f (f a y) x) -> l1 ≡ₚ l2 ->
  forall a, foldl f a l1 = foldl f a l2.
Proof.
  intros Hc Hp. induction Hp as [|x l1 l2 _ IH|x y l|l1 l2 l3 _ IH1 _ IH2];
    intros a; cbn [foldl].
  - reflexivity.
  - apply IH.
  - rewrite Hc. reflexivity.
  - rewrite IH1. apply IH2.
Qed.

(** [for safe in safes: self.mark_safe(safe)] and the loop over [mines]
    give the same state whatever order the Python set is iterated in. *)
Theorem mark_loops_order_free (ai : MinesweeperAI) (X : gset cell) (l : list cell) :
  l ≡ₚ elements X ->
  foldl mark_safe ai l = mark_safes ai X /\ foldl mark_mine ai l = mark_mines ai X.
Proof.
  intros Hp. unfold mark_safes, mark_mines. split.
  - apply foldl_perm; [intros; apply mark_safe_comm|exact Hp].
  - apply foldl_perm; [intros; apply mark_mine_comm|exact Hp].
Qed.

Lemma mark_loops_order_free_witness :
  rev (elements ({[(0, 0); (0, 1); (1, 1)]} : gset cell))
    ≡ₚ elements ({[(0, 0); (0, 1); (1, 1)]} : gset cell) /\
  foldl mark_safe ai_after_00 (rev (elements ({[(0, 0); (0, 1); (1, 1)]} : gset cell)))
    = mark_safes ai_after_00 {[(0, 0); (0, 1); (1, 1)]}.
Proof.
  assert (Hp : rev (elements ({[(0, 0); (0, 1); (1, 1)]} : gset cell))
                 ≡ₚ elements ({[(0, 0); (0, 1); (1, 1)]} : gset cell))
    by (symmetry; apply Permutation_rev).
  split; [exact Hp|].
  exact (proj1 (mark_loops_order_free ai_after_00 _ _ Hp)).
Defined.

(** ** [Sentence]: what its fields keep across the marking methods *)

(** The [Sentence] objects built by [Sentence(cells, count)] and then
    changed by any sequence of [mark_mine] and [mark_safe] calls. *)
Inductive marked_from (cs : gset cell) (k : Z) : Sentence.t -> Prop :=
  | marked_init : marked_from cs k (Sentence.init cs k)
  | marked_mine c s : marked_from cs k s -> marked_from cs k (Sentence.mark_mine c s)
  | marked_safe c s : marked_from cs k s -> marked_from cs k (Sentence.mark_safe c s).

(** A sentence's [cells], [mines] and [safes] split the cells it was built
    from, and [count] plus the number of its known mines stays the count it
    was built with. *)
Theorem sentence_partition (cs : gset cell) (k : Z) (s : Sentence.t) :
  marked_from cs k s ->
  Sentence.cells s ∪ Sentence.mines s ∪ Sentence.safes s = cs /\
  Sentence.cells s ## Sentence.mines s /\ Sentence.cells s ## Sentence.safes s /\
  Sentence.mines s ## Sentence.safes s /\
  Sentence.count s + Z.of_nat (size (Sentence.mines s)) = k.
Proof.
  induction 1 as [|c s _ IH|c s _ IH].
  - unfold Sentence.init. destruct (Z.of_nat (size cs) =? k) eqn:E1.
    + apply Z.eqb_eq in E1. cbn [Sentence.cells Sentence.mines Sentence.safes Sentence.count].
      repeat split; [set_solver..|lia].
    + destruct (k =? 0) eqn:E2;
        cbn [Sentence.cells Sentence.mines Sentence.safes Sentence.count];
        rewrite size_empty; (repeat split; [set_solver..|lia]).
  - destruct IH as (Hu & H1 & H2 & H3 & Hk). unfold Sentence.mark_mine.
    case_bool_decide as Hc; [|auto].
    cbn [Sentence.cells Sentence.mines Sentence.safes Sentence.count].
    rewrite (size_union {[c]} (Sentence.mines s)) by set_solver.
    rewrite size_singleton. repeat split; [|set_solver..|lia].
    apply set_eq. intros x. destruct (decide (x = c)); set_solver.
  - destruct IH as (Hu & H1 & H2 & H3 & Hk). unfold Sentence.mark_safe.
    case_bool_decide as Hc; [|auto].
    cbn [Sentence.cells Sentence.mines Sentence.safes Sentence.count].
    repeat split; [|set_solver..|lia].
    apply set_eq. intros x. destruct (decide (x = c)); set_solver.
Qed.

Lemma sentence_partition_witness :
  marked_from {[(0, 0); (0, 1); (1, 0)]} 1
    (Sentence.mark_safe (0, 1) (Sentence.init {[(0, 0); (0, 1); (1, 0)]} 1)) /\
  Sentence.count (Sentence.mark_safe (0, 1) (Sentence.init {[(0, 0); (0, 1); (1, 0)]} 1))
  + Z.of_nat (size (Sentence.mines
      (Sentence.mark_safe (0, 1) (Sentence.init {[(0, 0); (0, 1); (1, 0)]} 1)))) = 1.
Proof.
  assert (H : marked_from {[(0, 0); (0, 1); (1, 0)]} 1
    (Sentence.mark_safe (0, 1) (Sentence.init {[(0, 0); (0, 1); (1, 0)]} 1)))
    by (apply marked_safe, marked_init).
  split; [exact H|].
  exact (proj2 (proj2 (proj2 (proj2 (sentence_partition _ _ _ H))))).
Defined.

(** ** [MinesweeperAI.make_safe_move] *)

Lemma make_safe_move_some ai m :
  make_safe_move ai = Some m -> m ∈ safes ai /\ m ∉ moves_made ai.
Proof.
  unfold make_safe_move. intros Hm. apply find_some in Hm as [Hin Hp].
  apply negb_true_iff, bool_decide_eq_false in Hp.
  rewrite <- list_elem_of_In, elem_of_elements in Hin. auto.
Qed.

(** The move returned is a known safe cell not played yet, and [None] is
    returned exactly when every known safe cell has been played. *)
Theorem make_safe_move_spec (ai : MinesweeperAI) :
  (forall m, make_safe_move ai = Some m -> m ∈ safes ai /\ m ∉ moves_made ai) /\
  (make_safe_move ai = None <-> safes ai ⊆ moves_made ai).
Proof.
  split; [exact (make_safe_move_some ai)|]. unfold make_safe_move. split.
  - intros Hn x Hx. rewrite <- elem_of_elements, list_elem_of_In in Hx.
    pose proof (find_none _ _ Hn x Hx) as H.
    apply negb_false_iff, bool_decide_eq_true in H. exact H.
  - intros Hsub. destruct (find _ _) as [m|] eqn:E; [|reflexivity].
    apply find_some in E as [Hin Hp].
    apply negb_true_iff, bool_decide_eq_false in Hp.
    rewrite <- list_elem_of_In, elem_of_elements in Hin. set_solver.
Qed.

(** ** [update_knowledge] leaves the moves and the board size alone *)

Definition frame (mv : gset cell) (h w : Z) (ai : MinesweeperAI) : Prop :=
  moves_made ai = mv /\ height ai = h /\ width ai = w.

Lemma update_knowledge_frame_pres f ai cs k r :
  update_knowledge f ai cs k = Some r ->
  frame (moves_made ai) (height ai) (width ai) r.
Proof.
  apply (update_knowledge_pres (frame (moves_made ai) (height ai) (width ai))
           (fun _ _ _ => True) (fun _ => True) (fun _ => True)); try easy.
Qed.

(** [update_knowledge] never changes [moves_made], [height] or [width]. *)
Theorem update_knowledge_frame (f : nat) (ai : MinesweeperAI) (cs : gset cell) (k : Z)
    (r : MinesweeperAI) :
  update_knowledge f ai cs k = Some r ->
  moves_made r = moves_made ai /\ height r = height ai /\ width r = width ai.
Proof. apply update_knowledge_frame_pres. Qed.

Lemma update_knowledge_frame_witness :
  exists r, update_knowledge 10 ai_after_00 {[(0, 1); (1, 2)]} 1 = Some r /\
            moves_made r = moves_made ai_after_00.
Proof.
  destruct (update_knowledge 10 ai_after_00 {[(0, 1); (1, 2)]} 1) as [r|] eqn:E.
  - exists r. split; [reflexivity|].
    exact (proj1 (update_knowledge_frame 10 ai_after_00 {[(0, 1); (1, 2)]} 1 r E)).
  - vm_compute in E. discriminate E.
Defined.

(** ** Sentences are never removed: each keeps its place and only shrinks *)

Definition shrunk (s s' : Sentence.t) : Prop :=
  Sentence.cells s' ⊆ Sentence.cells s /\ Sentence.count s' <= Sentence.count s /\
  Sentence.mines s ⊆ Sentence.mines s' /\ Sentence.safes s ⊆ Sentence.safes s'.

Definition kept (kn : list Sentence.t) (ai : MinesweeperAI) : Prop :=
  forall i s, kn !! i = Some s ->
  exists s', knowledge ai !! i = Some s' /\ shrunk s s'.

Lemma lookup_map {A B} (f : A -> B) (l : list A) (i : nat) :
  map f l !! i = f <$> (l !! i).
Proof.
  revert i. induction l as [|a l IH]; intros [|i]; cbn; [reflexivity..|apply IH].
Qed.

Lemma shrunk_mark_safe s s' c : shrunk s s' -> shrunk s (Sentence.mark_safe c s').
Proof.
  unfold shrunk, Sentence.mark_safe. intros H. case_bool_decide; [|exact H].
  cbn [Sentence.cells Sentence.mines Sentence.safes Sentence.count].
  destruct H as (? & ? & ? & ?). repeat split; [set_solver|lia|set_solver..].
Qed.

Lemma shrunk_mark_mine s s' c : shrunk s s' -> shrunk s (Sentence.mark_mine c s').
Proof.
  unfold shrunk, Sentence.mark_mine. intros H. case_bool_decide; [|exact H].
  cbn [Sentence.cells Sentence.mines Sentence.safes Sentence.count].
  destruct H as (? & ? & ? & ?). repeat split; [set_solver|lia|set_solver..].
Qed.

Lemma kept_mark_safe kn ai c : kept kn ai -> kept kn (mark_safe ai c).
Proof.
  intros H i s Hi. destruct (H i s Hi) as (s' & Hs' & Hsh).
  exists (Sentence.mark_safe c s'). unfold mark_safe. cbn [knowledge].
  rewrite lookup_map, Hs'. split; [reflexivity|]. apply shrunk_mark_safe, Hsh.
Qed.

Lemma kept_mark_mine kn ai c : kept kn ai -> kept kn (mark_mine ai c).
Proof.
  intros H i s Hi. destruct (H i s Hi) as (s' & Hs' & Hsh).
  exists (Sentence.mark_mine c s'). unfold mark_mine. cbn [knowledge].
  rewrite lookup_map, Hs'. split; [reflexivity|]. apply shrunk_mark_mine, Hsh.
Qed.

Lemma kept_refl ai : kept (knowledge ai) ai.
Proof.
  intros i s Hi. exists s. split; [exact Hi|]. unfold shrunk.
  repeat split; [set_solver|lia|set_solver..].
Qed.

(** [update_knowledge] keeps every sentence object of [self.knowledge] at
    its index; a sentence only loses cells, its count never grows, and its
    known mines and safes only grow. *)
Theorem update_knowledge_keeps_sentences (f : nat) (ai : MinesweeperAI) (cs : gset cell)
    (k : Z) (r : MinesweeperAI) :
  update_knowledge f ai cs k = Some r ->
  forall i s, knowledge ai !! i = Some s ->
  exists s', knowledge r !! i = Some s' /\
    Sentence.cells s' ⊆ Sentence.cells s /\ Sentence.count s' <= Sentence.count s /\
    Sentence.mines s ⊆ Sentence.mines s' /\ Sentence.safes s ⊆ Sentence.safes s'.
Proof.
  intros H. change (kept (knowledge ai) r).
  refine (update_knowledge_pres (kept (knowledge ai)) (fun _ _ _ => True)
            (fun _ => True) (fun _ => True) _ _ _ _ _ f ai cs k r (kept_refl ai) I H).
  - intros ai' c HP _. apply kept_mark_safe, HP.
  - intros ai' c HP _. apply kept_mark_mine, HP.
  - intros ai' cs' k' HP _. split; [|split; intros; exact I].
    intros i s Hi. destruct (HP i s Hi) as (s' & Hs' & Hsh). exists s'.
    unfold append_sentence. cbn [knowledge]. split; [|exact Hsh].
    rewrite lookup_app_l; [exact Hs'|]. apply lookup_lt_Some in Hs'. exact Hs'.
  - intros. split; intros; exact I.
  - intros. exact I.
Qed.

Lemma update_knowledge_keeps_sentences_witness :
  exists r, update_knowledge 10 ai_after_00 {[(0, 1); (1, 2)]} 1 = Some r /\
    exists s', knowledge r !! 0%nat = Some s' /\
      Sentence.cells s' ⊆ {[(0, 1); (1, 0); (1, 1)]}.
Proof.
  destruct (update_knowledge 10 ai_after_00 {[(0, 1); (1, 2)]} 1) as [r|] eqn:E.
  - exists r. split; [reflexivity|].
    destruct (update_knowledge_keeps_sentences 10 ai_after_00 {[(0, 1); (1, 2)]} 1 r E
                0%nat (Sentence.mk {[(0, 1); (1, 0); (1, 1)]} ∅ ∅ 1) eq_refl)
      as (s' & Hs' & Hc & _).
    exists s'. split; [exact Hs'|exact Hc].
  - vm_compute in E. discriminate E.
Defined.

(** ** [add_knowledge]: what it records *)

(** [add_knowledge(cell, count)] adds [cell] to [moves_made] and nothing
    else, leaves [cell] known safe, keeps the board size, and only adds to
    [safes] and [mines]. *)
Theorem add_knowledge_bookkeeping (f : nat) (ai : MinesweeperAI) (c : cell) (k : Z)
    (r : MinesweeperAI) :
  add_knowledge f ai c k = Some r ->
  moves_made r = {[c]} ∪ moves_made ai /\ c ∈ safes r /\
  height r = height ai /\ width r = width ai /\
  safes ai ⊆ safes r /\ mines ai ⊆ mines r.
Proof.
  rewrite add_knowledge_unfold. cbv zeta. intros H.
  destruct (update_knowledge_frame_pres _ _ _ _ _ H) as (Hm & Hh & Hw).
  destruct (update_knowledge_grows _ _ _ _ _ H) as [Hs Hn].
  unfold mark_safe, add_move in *.
  cbn [moves_made height width safes mines] in Hm, Hh, Hw, Hs, Hn.
  repeat split; [exact Hm|set_solver|exact Hh|exact Hw|set_solver|exact Hn].
Qed.

Lemma add_knowledge_bookkeeping_witness :
  add_knowledge 4 (init_ai 2 3) (0, 0) 1 = Some ai_after_00 /\
  moves_made ai_after_00 = {[(0, 0)]} ∪ moves_made (init_ai 2 3).
Proof.
  assert (E : add_knowledge 4 (init_ai 2 3) (0, 0) 1 = Some ai_after_00) by reflexivity.
  split; [exact E|].
  exact (proj1 (add_knowledge_bookkeeping 4 (init_ai 2 3) (0, 0) 1 ai_after_00 E)).
Defined.

(** ** Reachable states stay on the board *)

Definition on_board (h w : Z) (x : cell) : Prop := 0 <= x.1 < h /\ 0 <= x.2 < w.

(** The agent's invariant for an [h] by [w] board: the played cells are
    known safe; every known mine, every known safe cell not played yet and
    every cell of a sentence is on the board. *)
Definition board_inv (h w : Z) (ai : MinesweeperAI) : Prop :=
  height ai = h /\ width ai = w /\ moves_made ai ⊆ safes ai /\
  (forall x, x ∈ mines ai -> on_board h w x) /\
  (forall x, x ∈ safes ai -> x ∉ moves_made ai -> on_board h w x) /\
  (forall s x, s ∈ knowledge ai -> x ∈ Sentence.cells s -> on_board h w x).

Lemma sentence_mark_safe_cells c s : Sentence.cells (Sentence.mark_safe c s) ⊆ Sentence.cells s.
Proof. unfold Sentence.mark_safe. case_bool_decide; cbn [Sentence.cells]; set_solver. Qed.

Lemma sentence_mark_mine_cells c s : Sentence.cells (Sentence.mark_mine c s) ⊆ Sentence.cells s.
Proof. unfold Sentence.mark_mine. case_bool_decide; cbn [Sentence.cells]; set_solver. Qed.

Lemma init_parts_sub cs k :
  Sentence.safes (Sentence.init cs k) ⊆ cs /\ Sentence.mines (Sentence.init cs k) ⊆ cs.
Proof.
  unfold Sentence.init. destruct (_ =? _); [cbn; set_solver|].
  destruct (_ =? _); cbn; set_solver.
Qed.

Lemma board_inv_mark_safe h w ai c :
  board_inv h w ai -> on_board h w c -> board_inv h w (mark_safe ai c).
Proof.
  intros (Hh & Hw & Hms & Hm & Hs & Hk) Hc. unfold mark_safe, board_inv.
  cbn [height width moves_made mines safes knowledge].
  split; [exact Hh|]. split; [exact Hw|]. split; [set_solver|].
  split; [exact Hm|]. split; [intros x Hx Hx'; apply elem_of_union in Hx as [Hx|Hx];
    [apply elem_of_singleton in Hx as ->; exact Hc|apply Hs; assumption]|].
  intros s x Hs' Hx. apply list_elem_of_In, in_map_iff in Hs' as (s0 & <- & Hs0).
  apply (Hk s0); [apply list_elem_of_In, Hs0|exact (sentence_mark_safe_cells c s0 x Hx)].
Qed.

Lemma board_inv_mark_mine h w ai c :
  board_inv h w ai -> on_board h w c -> board_inv h w (mark_mine ai c).
Proof.
  intros (Hh & Hw & Hms & Hm & Hs & Hk) Hc. unfold mark_mine, board_inv.
  cbn [height width moves_made mines safes knowledge].
  split; [exact Hh|]. split; [exact Hw|]. split; [exact Hms|].
  split; [intros x Hx; apply elem_of_union in Hx as [Hx|Hx];
    [apply elem_of_singleton in Hx as ->; exact Hc|apply Hm; assumption]|].
  split; [exact Hs|].
  intros s x Hs' Hx. apply list_elem_of_In, in_map_iff in Hs' as (s0 & <- & Hs0).
  apply (Hk s0); [apply list_elem_of_In, Hs0|exact (sentence_mark_mine_cells c s0 x Hx)].
Qed.

Lemma update_knowledge_board_inv h w f ai cs k r :
  board_inv h w ai -> (forall x, x ∈ cs -> on_board h w x) ->
  update_knowledge f ai cs k = Some r -> board_inv h w r.
Proof.
  refine (update_knowledge_pres (board_inv h w)
            (fun _ cs _ => forall x, x ∈ cs -> on_board h w x)
            (on_board h w) (on_board h w) _ _ _ _ _ f ai cs k r).
  - apply board_inv_mark_safe.
  - apply board_inv_mark_mine.
  - intros ai' cs' k' HP HA. destruct (init_parts_sub cs' k') as [Hs Hm].
    split; [|split; intros x Hx; apply HA; set_solver].
    destruct HP as (Hh & Hw & Hms & Hm' & Hs' & Hk).
    unfold board_inv, append_sentence. cbn [height width moves_made mines safes knowledge].
    do 5 (split; [assumption|]). intros s x Hsx Hx.
    apply elem_of_app in Hsx as [Hsx|Hsx]; [eapply Hk; eauto|].
    apply list_elem_of_singleton in Hsx as ->. apply HA, (init_cells_sub cs' k'), Hx.
  - intros ai' s HP Hs. destruct HP as (_ & _ & _ & _ & _ & Hk).
    split; intros; eapply Hk; eauto.
  - intros ai' s1 s2 HP _ H2 _ x Hx. destruct HP as (_ & _ & _ & _ & _ & Hk).
    apply (Hk s2); [exact H2|set_solver].
Qed.

Lemma neighbor_step_on_board ai c v k0 N0 :
  (forall x, x ∈ N0 -> on_board (height ai) (width ai) x) ->
  forall x, x ∈ (neighbor_step ai c (k0, N0) v).2 ->
  on_board (height ai) (width ai) x.
Proof.
  intros HN. unfold neighbor_step.
  destruct (in_range _ 0 (height ai) && in_range _ 0 (width ai) && _) eqn:E;
    [|exact HN].
  apply andb_true_iff in E as [E _]. apply andb_true_iff in E as [E1 E2].
  unfold in_range in E1, E2. apply andb_true_iff in E1 as [E1 E1'].
  apply andb_true_iff in E2 as [E2 E2'].
  apply Z.leb_le in E1, E2. apply Z.ltb_lt in E1', E2'.
  destruct (bool_decide _); [exact HN|].
  destruct (negb _); [|exact HN].
  intros x Hx. cbn [snd] in Hx. apply elem_of_union in Hx as [Hx|Hx]; [|apply HN, Hx].
  apply elem_of_singleton in Hx as ->. unfold on_board. cbn [fst snd] in *. lia.
Qed.

Lemma neighbor_fold_on_board ai c vs k0 N0 :
  (forall x, x ∈ N0 -> on_board (height ai) (width ai) x) ->
  forall x, x ∈ (foldl (neighbor_step ai c) (k0, N0) vs).2 ->
  on_board (height ai) (width ai) x.
Proof.
  revert k0 N0. induction vs as [|v vs IH]; intros k0 N0 HN; [exact HN|].
  cbn [foldl]. pose proof (neighbor_step_on_board ai c v k0 N0 HN) as H1.
  destruct (neighbor_step ai c (k0, N0) v) as [k1 N1]. apply IH, H1.
Qed.

Lemma add_knowledge_board_inv h w f ai c k r :
  board_inv h w ai -> add_knowledge f ai c k = Some r -> board_inv h w r.
Proof.
  intros HP. rewrite add_knowledge_unfold. cbv zeta.
  assert (HP1 : board_inv h w (mark_safe (add_move ai c) c)).
  { destruct HP as (Hh & Hw & Hms & Hm & Hs & Hk).
    unfold board_inv, mark_safe, add_move.
    cbn [height width moves_made mines safes knowledge].
    split; [exact Hh|]. split; [exact Hw|]. split; [set_solver|].
    split; [exact Hm|]. split; [intros x Hx Hx'; apply Hs; set_solver|].
    intros s x Hs' Hx. apply list_elem_of_In, in_map_iff in Hs' as (s0 & <- & Hs0).
    apply (Hk s0); [apply list_elem_of_In, Hs0|exact (sentence_mark_safe_cells c s0 x Hx)]. }
  apply update_knowledge_board_inv; [exact HP1|].
  destruct HP1 as (Hh & Hw & _).
  rewrite <- Hh, <- Hw. apply neighbor_fold_on_board. set_solver.
Qed.

Lemma reachable_board_inv_aux h w ai : reachable h w ai -> board_inv h w ai.
Proof.
  induction 1 as [|f ai0 c k r _ IH Hadd].
  - unfold board_inv, init_ai. cbn [height width moves_made mines safes knowledge].
    split; [reflexivity|]. split; [reflexivity|]. split; [set_solver|].
    split; [set_solver|]. split; [set_solver|]. intros s x Hs. set_solver.
  - eapply add_knowledge_board_inv; eauto.
Qed.

(** In every state reachable on an [h] by [w] board, the played cells are
    known safe, and every known mine, every known safe cell not played yet
    and every cell of a sentence lies on the board. *)
Theorem reachable_board_inv (h w : Z) (ai : MinesweeperAI) :
  reachable h w ai ->
  height ai = h /\ width ai = w /\ moves_made ai ⊆ safes ai /\
  (forall x, x ∈ mines ai -> 0 <= x.1 < h /\ 0 <= x.2 < w) /\
  (forall x, x ∈ safes ai -> x ∉ moves_made ai -> 0 <= x.1 < h /\ 0 <= x.2 < w) /\
  (forall s x, s ∈ knowledge ai -> x ∈ Sentence.cells s -> 0 <= x.1 < h /\ 0 <= x.2 < w).
Proof.
  intros Hr. exact (reachable_board_inv_aux h w ai Hr).
Qed.

Lemma reachable_after_00 : reachable 2 3 ai_after_00.
Proof. apply (reach_add 2 3 4 (init_ai 2 3) (0, 0) 1); [constructor|reflexivity]. Qed.

Lemma reachable_board_inv_witness :
  reachable 2 3 ai_after_00 /\ moves_made ai_after_00 ⊆ safes ai_after_00.
Proof.
  split; [exact reachable_after_00|].
  exact (proj1 (proj2 (proj2 (reachable_board_inv 2 3 ai_after_00 reachable_after_00)))).
Defined.

(** In a reachable state, [make_safe_move] returns a cell of the board that
    has not been played. *)
Theorem reachable_safe_move_on_board (h w : Z) (ai : MinesweeperAI) (m : cell) :
  reachable h w ai -> make_safe_move ai = Some m ->
  (0 <= m.1 < h /\ 0 <= m.2 < w) /\ m ∉ moves_made ai.
Proof.
  intros Hr Hm. destruct (make_safe_move_some ai m Hm) as [Hs Hn].
  destruct (reachable_board_inv_aux h w ai Hr) as (_ & _ & _ & _ & Hb & _).
  split; [apply Hb|]; assumption.
Qed.

(** On a 3 x 3 board, the state after [add_knowledge((0, 0), 0)]. *)
Definition ai_3x3_after_00 : MinesweeperAI :=
  mkAI 3 3 {[(0, 0)]} ∅ {[(0, 0); (0, 1); (1, 0); (1, 1)]}
    [Sentence.mk ∅ ∅ {[(0, 1); (1, 0); (1, 1)]} 0].

Lemma reachable_safe_move_on_board_witness :
  reachable 3 3 ai_3x3_after_00 /\ make_safe_move ai_3x3_after_00 = Some (0, 1) /\
  ((0 <= 0 < 3 /\ 0 <= 1 < 3) /\ (0, 1) ∉ moves_made ai_3x3_after_00).
Proof.
  assert (Hr : reachable 3 3 ai_3x3_after_00).
  { apply (reach_add 3 3 4 (init_ai 3 3) (0, 0) 0); [constructor|reflexivity]. }
  assert (Hm : make_safe_move ai_3x3_after_00 = Some (0, 1)) by reflexivity.
  split; [exact Hr|split; [exact Hm|]].
  exact (reachable_safe_move_on_board 3 3 ai_3x3_after_00 (0, 1) Hr Hm).
Defined.

(** ** [Minesweeper.__init__] *)

(** Python's index [i] into a list of length [n]: a negative index counts
    from the end; out of range, [IndexError]. *)
Definition py_index (n : nat) (i : Z) : option nat :=
  if (0 <=? i) && (i <? Z.of_nat n) then Some (Z.to_nat i)
  else if (- Z.of_nat n <=? i) && (i <? 0) then Some (Z.to_nat (Z.of_nat n + i))
  else None.

(** [self.board[i][j]]; [None] is an [IndexError]. *)
Definition py_get (b : list (list bool)) (i j : Z) : option bool :=
  match py_index (length b) i with
  | None => None
  | Some ii =>
      match b !! ii with
      | None => None
      | Some row =>
          match py_index (length row) j with
          | None => None
          | Some jj => row !! jj
          end
      end
  end.

(** [self.board[i][j] = v]: the row object inside [self.board] is updated
    in place. *)
Definition py_set (b : list (list bool)) (i j : Z) (v : bool) : option (list (list bool)) :=
  match py_index (length b) i with
  | None => None
  | Some ii =>
      match b !! ii with
      | None => None
      | Some row =>
          match py_index (length row) j with
          | None => None
          | Some jj => Some (<[ii := <[jj := v]> row]> b)
          end
      end
  end.

(** The nested [for] loops that build the empty field. *)
Definition board_init (h w : Z) : list (list bool) :=
  map (fun _ => map (fun _ => false) (zrange 0 w)) (zrange 0 h).

(** How a call of [Minesweeper(height, width, mines)] ends. *)
Inductive init_result :=
  | InitOk (g : Minesweeper) (board : list (list bool))
  | InitValueError
  | InitIndexError
  | InitOutOfFuel.

(** [while len(self.mines) != mines: ...]; [rnd k] is the pair
    [(random.randrange(height), random.randrange(width))] of the [k]-th
    iteration.  [random.randrange(n)] raises [ValueError] when [n <= 0]. *)
Fixpoint place_mines (fuel : nat) (h w n : Z) (rnd : nat -> cell) (k : nat)
    (mines : gset cell) (board : list (list bool)) : init_result :=
  match fuel with
  | O => InitOutOfFuel
  | S fuel' =>
      if negb (Z.of_nat (size mines) =? n) then
        if (h <=? 0) || (w <=? 0) then InitValueError
        else
          let '(i, j) := rnd k in
          match py_get board i j with
          | None => InitIndexError
          | Some true => place_mines fuel' h w n rnd (S k) mines board
          | Some false =>
              match py_set board i j true with
              | None => InitIndexError
              | Some board' =>
                  place_mines fuel' h w n rnd (S k) ({[(i, j)]} ∪ mines) board'
              end
          end
      else InitOk (mkMinesweeper h w mines) board
  end.

Definition minesweeper_init (fuel : nat) (h w n : Z) (rnd : nat -> cell) : init_result :=
  place_mines fuel h w n rnd 0 ∅ (board_init h w).

(** [random.randrange(height)] and [random.randrange(width)] return values
    in [range(height)] and [range(width)]. *)
Definition randrange_draws (h w : Z) (rnd : nat -> cell) : Prop :=
  forall k, 0 < h -> 0 < w -> 0 <= (rnd k).1 < h /\ 0 <= (rnd k).2 < w.

Definition board_shape (h w : Z) (b : list (list bool)) : Prop :=
  length b = Z.to_nat h /\ Forall (fun row => length row = Z.to_nat w) b.

(** The loop's invariant: the field has its shape, [self.board] marks
    exactly the cells of [self.mines], and these are on the board. *)
Definition field_inv (h w : Z) (mines : gset cell) (b : list (list bool)) : Prop :=
  board_shape h w b /\
  (forall i j, 0 <= i < h -> 0 <= j < w ->
     py_get b i j = Some (bool_decide ((i, j) ∈ mines))) /\
  (forall x, x ∈ mines -> 0 <= x.1 < h /\ 0 <= x.2 < w).

Lemma in_zrange a b x : In x (zrange a b) <-> a <= x < b.
Proof.
  unfold zrange. rewrite in_map_iff. split.
  - intros (k & <- & Hk). apply in_seq in Hk. lia.
  - intros Hx. exists (Z.to_nat (x - a)). split; [lia|]. apply in_seq. lia.
Qed.

Lemma length_zrange a b : length (zrange a b) = Z.to_nat (b - a).
Proof. unfold zrange. rewrite length_map, length_seq. reflexivity. Qed.

Lemma py_index_in n i : 0 <= i < Z.of_nat n -> py_index n i = Some (Z.to_nat i).
Proof.
  intros Hi. unfold py_index.
  rewrite (proj2 (andb_true_iff _ _)); [reflexivity|]. split; [apply Z.leb_le|apply Z.ltb_lt]; lia.
Qed.

Lemma py_get_shape h w b i j :
  board_shape h w b -> 0 <= i < h -> 0 <= j < w ->
  py_get b i j = (b !! Z.to_nat i) ≫= (fun row => row !! Z.to_nat j).
Proof.
  intros [Hl Hf] Hi Hj. unfold py_get. rewrite (py_index_in (length b) i) by lia.
  destruct (b !! Z.to_nat i) as [row|] eqn:E; cbn; [|reflexivity].
  rewrite Forall_lookup in Hf. specialize (Hf _ _ E). cbn in Hf.
  rewrite py_index_in by lia. reflexivity.
Qed.

Lemma py_set_shape h w b i j v :
  board_shape h w b -> 0 <= i < h -> 0 <= j < w ->
  exists row, b !! Z.to_nat i = Some row /\ length row = Z.to_nat w /\
    py_set b i j v = Some (<[Z.to_nat i := <[Z.to_nat j := v]> row]> b).
Proof.
  intros [Hl Hf] Hi Hj. unfold py_set. rewrite (py_index_in (length b) i) by lia.
  destruct (b !! Z.to_nat i) as [row|] eqn:E.
  - rewrite Forall_lookup in Hf. specialize (Hf _ _ E). cbn in Hf.
    exists row. rewrite py_index_in by lia. auto.
  - apply lookup_ge_None in E. lia.
Qed.

Lemma board_init_shape h w : board_shape h w (board_init h w).
Proof.
  unfold board_shape, board_init. split.
  - rewrite length_map, length_zrange. f_equal. lia.
  - apply Forall_forall. intros row Hrow.
    apply list_elem_of_In, in_map_iff in Hrow as (? & <- & _).
    rewrite length_map, length_zrange. f_equal. lia.
Qed.

Lemma field_inv_init h w : field_inv h w ∅ (board_init h w).
Proof.
  split; [apply board_init_shape|split].
  - intros i j Hi Hj. rewrite (py_get_shape h w); [|apply board_init_shape|lia|lia].
    unfold board_init. rewrite lookup_map.
    destruct (lookup_lt_is_Some_2 (zrange 0 h) (Z.to_nat i)) as [x Hx];
      [rewrite length_zrange; lia|].
    rewrite Hx. cbn. rewrite lookup_map.
    destruct (lookup_lt_is_Some_2 (zrange 0 w) (Z.to_nat j)) as [y Hy];
      [rewrite length_zrange; lia|].
    rewrite Hy. cbn. rewrite bool_decide_eq_false_2 by set_solver. reflexivity.
  - set_solver.
Qed.

Lemma field_inv_set h w mines b i j b' :
  field_inv h w mines b -> 0 <= i < h -> 0 <= j < w ->
  py_set b i j true = Some b' -> field_inv h w ({[(i, j)]} ∪ mines) b'.
Proof.
  intros (Hs & Hg & Hm) Hi Hj Hset.
  destruct (py_set_shape h w b i j true Hs Hi Hj) as (row & Hrow & Hlen & E).
  rewrite E in Hset. injection Hset as <-.
  assert (Hs' : board_shape h w (<[Z.to_nat i := <[Z.to_nat j := true]> row]> b)).
  { destruct Hs as [Hl Hf]. split; [rewrite length_insert; exact Hl|].
    apply Forall_insert; [exact Hf|]. rewrite length_insert. exact Hlen. }
  split; [exact Hs'|split].
  - intros i' j' Hi' Hj'. pose proof (proj1 Hs) as Hl.
    rewrite (py_get_shape h w _ i' j' Hs' Hi' Hj').
    specialize (Hg i' j' Hi' Hj'). rewrite (py_get_shape h w b i' j' Hs Hi' Hj') in Hg.
    rewrite list_lookup_insert.
    destruct (decide (Z.to_nat i = Z.to_nat i' /\ (Z.to_nat i < length b)%nat))
      as [[Ei _]|Ni].
    + assert (i' = i) by lia. subst i'. rewrite Hrow in Hg. cbn in Hg |- *.
      rewrite list_lookup_insert.
      destruct (decide (Z.to_nat j = Z.to_nat j' /\ (Z.to_nat j < length row)%nat))
        as [[Ej _]|Nj].
      * assert (j' = j) by lia. subst j'. rewrite bool_decide_eq_true_2 by set_solver.
        reflexivity.
      * rewrite Hg. f_equal. apply bool_decide_ext.
        assert ((i, j') <> (i, j)) by (intros [= ->]; apply Nj; split; [reflexivity|lia]).
        set_solver.
    + rewrite Hg. f_equal. apply bool_decide_ext.
      assert ((i', j') <> (i, j)) by (intros [= -> ->]; apply Ni; split; [reflexivity|lia]).
      set_solver.
  - intros x Hx. apply elem_of_union in Hx as [Hx|Hx]; [|apply Hm, Hx].
    apply elem_of_singleton in Hx as ->. cbn [fst snd]. lia.
Qed.

Lemma place_mines_spec fuel h w n rnd k mines b :
  randrange_draws h w rnd -> field_inv h w mines b ->
  match place_mines fuel h w n rnd k mines b with
  | InitOk g b' =>
      ms_height g = h /\ ms_width g = w /\ Z.of_nat (size (ms_mines g)) = n /\
      field_inv h w (ms_mines g) b'
  | InitValueError => h <= 0 \/ w <= 0
  | InitIndexError => False
  | InitOutOfFuel => True
  end.
Proof.
  intros Hdraw. revert k mines b.
  induction fuel as [|fuel IH]; intros k mines b Hinv; cbn [place_mines]; [exact I|].
  destruct (Z.of_nat (size mines) =? n) eqn:En; cbn [negb].
  - apply Z.eqb_eq in En. cbn [ms_height ms_width ms_mines]. auto.
  - destruct ((h <=? 0) || (w <=? 0)) eqn:Ehw.
    + apply orb_true_iff in Ehw as [E|E]; apply Z.leb_le in E; auto.
    + apply orb_false_iff in Ehw as [Eh Ew]. apply Z.leb_gt in Eh, Ew.
      destruct (Hdraw k Eh Ew) as [Hi Hj].
      destruct (rnd k) as [i j]. cbn [fst snd] in Hi, Hj.
      pose proof Hinv as (Hs & Hg & _). rewrite (Hg i j Hi Hj).
      case_bool_decide as Hin; [apply IH, Hinv|].
      destruct (py_set_shape h w b i j true Hs Hi Hj) as (row & _ & _ & E).
      rewrite E. apply IH. eapply field_inv_set; [exact Hinv|exact Hi|exact Hj|exact E].
Qed.

Lemma size_le_list (X : gset cell) (l : list cell) :
  (forall x, x ∈ X -> In x l) -> (size X <= length l)%nat.
Proof.
  intros H. unfold size, set_size. cbn.
  apply submseteq_length, NoDup_submseteq; [apply NoDup_elements|].
  intros x Hx. apply list_elem_of_In, H, elem_of_elements, Hx.
Qed.

Lemma on_board_size (h w : Z) (X : gset cell) :
  (forall x, x ∈ X -> 0 <= x.1 < h /\ 0 <= x.2 < w) ->
  (size X <= Z.to_nat h * Z.to_nat w)%nat.
Proof.
  intros H. etransitivity.
  - apply (size_le_list X (list_prod (zrange 0 h) (zrange 0 w))).
    intros [i j] Hx. apply H in Hx. cbn [fst snd] in Hx.
    apply in_prod; apply in_zrange; lia.
  - rewrite length_prod, !length_zrange, !Z.sub_0_r. lia.
Qed.

Lemma minesweeper_init_size fuel h w n rnd g b :
  randrange_draws h w rnd -> minesweeper_init fuel h w n rnd = InitOk g b ->
  Z.of_nat (size (ms_mines g)) = n /\ (size (ms_mines g) <= Z.to_nat h * Z.to_nat w)%nat.
Proof.
  intros Hdraw E.
  pose proof (place_mines_spec fuel h w n rnd 0 ∅ (board_init h w) Hdraw
                (field_inv_init h w)) as H.
  unfold minesweeper_init in E. rewrite E in H.
  destruct H as (_ & _ & Hn & _ & _ & Hm). split; [exact Hn|apply on_board_size, Hm].
Qed.

(** When [Minesweeper(height, width, mines)] returns, it has placed exactly
    [mines] distinct mines, all on the board (so [mines] is at most
    [height * width]), and [self.board[i][j]] is [True] exactly at them,
    which is what [is_mine] reads. *)
Theorem minesweeper_init_ok (fuel : nat) (h w n : Z) (rnd : nat -> cell)
    (g : Minesweeper) (b : list (list bool)) :
  randrange_draws h w rnd -> minesweeper_init fuel h w n rnd = InitOk g b ->
  ms_height g = h /\ ms_width g = w /\ Z.of_nat (size (ms_mines g)) = n /\
  (size (ms_mines g) <= Z.to_nat h * Z.to_nat w)%nat /\
  (forall x, x ∈ ms_mines g -> 0 <= x.1 < h /\ 0 <= x.2 < w) /\
  (forall i j, 0 <= i < h -> 0 <= j < w -> py_get b i j = Some (is_mine g (i, j))).
Proof.
  intros Hdraw E.
  pose proof (place_mines_spec fuel h w n rnd 0 ∅ (board_init h w) Hdraw
                (field_inv_init h w)) as H.
  unfold minesweeper_init in E. rewrite E in H.
  destruct H as (Hh & Hw & Hn & _ & Hg & Hm).
  split; [exact Hh|split; [exact Hw|split; [exact Hn|split; [|split; [exact Hm|]]]]].
  - apply on_board_size, Hm.
  - intros i j Hi Hj. rewrite Hg by assumption. reflexivity.
Qed.

Definition rnd_column (k : nat) : cell := (Z.of_nat (k mod 2), 0).

Lemma randrange_draws_column : randrange_draws 2 1 rnd_column.
Proof.
  intros k _ _. unfold rnd_column. cbn [fst snd].
  pose proof (Nat.mod_upper_bound k 2 ltac:(lia)). lia.
Qed.

Lemma minesweeper_init_ok_witness :
  randrange_draws 2 1 rnd_column /\
  minesweeper_init 3 2 1 2 rnd_column =
    InitOk (mkMinesweeper 2 1 {[(0, 0); (1, 0)]}) [[true]; [true]] /\
  Z.of_nat (size (ms_mines (mkMinesweeper 2 1 {[(0, 0); (1, 0)]}))) = 2.
Proof.
  assert (E : minesweeper_init 3 2 1 2 rnd_column =
                InitOk (mkMinesweeper 2 1 {[(0, 0); (1, 0)]}) [[true]; [true]])
    by reflexivity.
  split; [exact randrange_draws_column|split; [exact E|]].
  exact (proj1 (proj2 (proj2 (minesweeper_init_ok 3 2 1 2 rnd_column _ _
                                randrange_draws_column E)))).
Defined.

(** [Minesweeper(...)] never raises [IndexError], and raises [ValueError]
    exactly when the board is empty ([height <= 0] or [width <= 0]) and
    [mines] is not 0. *)
Theorem minesweeper_init_errors (fuel : nat) (h w n : Z) (rnd : nat -> cell) :
  randrange_draws h w rnd ->
  minesweeper_init fuel h w n rnd <> InitIndexError /\
  (minesweeper_init fuel h w n rnd = InitValueError <->
   fuel <> 0%nat /\ (h <= 0 \/ w <= 0) /\ n <> 0).
Proof.
  intros Hdraw.
  pose proof (place_mines_spec fuel h w n rnd 0 ∅ (board_init h w) Hdraw
                (field_inv_init h w)) as H.
  unfold minesweeper_init in *.
  split; [intros E; rewrite E in H; exact H|split].
  - intros E. rewrite E in H. split; [|split; [exact H|]].
    + intros ->. discriminate E.
    + intros ->. destruct fuel; [discriminate E|].
      cbn [place_mines] in E. rewrite size_empty in E. discriminate E.
  - intros (Hf & Hhw & Hn). destruct fuel as [|fuel]; [congruence|].
    cbn [place_mines]. rewrite size_empty.
    rewrite (proj2 (Z.eqb_neq _ _)) by lia. cbn [negb].
    rewrite (proj2 (orb_true_iff _ _)); [reflexivity|].
    destruct Hhw; [left|right]; apply Z.leb_le; assumption.
Qed.

Definition rnd_origin (k : nat) : cell := (0, 0).

Lemma minesweeper_init_errors_witness :
  randrange_draws 0 3 rnd_origin /\
  minesweeper_init 5 0 3 1 rnd_origin = InitValueError.
Proof.
  assert (Hd : randrange_draws 0 3 rnd_origin) by (intros k Hh; lia).
  split; [exact Hd|].
  apply (minesweeper_init_errors 5 0 3 1 rnd_origin Hd). split; [discriminate|lia].
Defined.

(** Asking for a negative number of mines or for more mines than cells,
    [Minesweeper(...)] never returns: its loop runs forever (or raises
    [ValueError] on an empty board). *)
Theorem minesweeper_init_infeasible (fuel : nat) (h w n : Z) (rnd : nat -> cell) :
  randrange_draws h w rnd -> (n < 0 \/ Z.of_nat (Z.to_nat h * Z.to_nat w) < n) ->
  forall g b, minesweeper_init fuel h w n rnd <> InitOk g b.
Proof.
  intros Hdraw Hn g b E.
  destruct (minesweeper_init_size fuel h w n rnd g b Hdraw E) as (Hs & Hle).
  lia.
Qed.

Lemma minesweeper_init_infeasible_witness :
  randrange_draws 1 1 rnd_origin /\ (2 < 0 \/ Z.of_nat (Z.to_nat 1 * Z.to_nat 1) < 2) /\
  minesweeper_init 50 1 1 2 rnd_origin <> InitOk (mkMinesweeper 1 1 {[(0, 0)]}) [[true]].
Proof.
  assert (Hd : randrange_draws 1 1 rnd_origin) by (intros k _ _; cbn; lia).
  assert (Hn : 2 < 0 \/ Z.of_nat (Z.to_nat 1 * Z.to_nat 1) < 2) by (right; cbn; lia).
  split; [exact Hd|split; [exact Hn|]].
  exact (minesweeper_init_infeasible 50 1 1 2 rnd_origin Hd Hn _ _).
Defined.
